(** * EndoFind surgeon updater: the merge pipeline of [scripts/update_surgeons.py]

    A shallow embedding of the name normaliser, the identifier maker, the
    merge engine, the paginated extractor's page loop and the orchestrator's
    per-source loop, followed by the properties the specification states
    about them.

    Text.  A Python [str] is a [string]; its characters are ASCII code
    points, on which [str.lower], [str.strip], [str.split] and the regular
    expression class [\s] are the functions below.  Characters above 127 are
    carried through unchanged (no case, not white space). *)

From Stdlib Require Import Ascii.
From Stdlib Require String.
From Stdlib Require Import ZArith.
From Stdlib Require QArith.
From Stdlib Require Import Sorting.Sorted.
From stdpp Require Import base decidable option list strings gmap.
From Equations Require Import Equations.

Local Open Scope stdpp_scope.

(** ** Python's string primitives *)

Module Py.

(** [str.isspace] on one ASCII character, which is also what [\s] matches
    in a [str] pattern and what [strip()] and [split()] remove:
    TAB LF VT FF CR, FS GS RS US and the space. *)
Definition is_space (c : ascii) : bool :=
  let n := nat_of_ascii c in
  ((9 <=? n) && (n <=? 13)) || ((28 <=? n) && (n <=? 32)).

Definition is_upper (c : ascii) : bool :=
  let n := nat_of_ascii c in (65 <=? n) && (n <=? 90).

Definition is_lower (c : ascii) : bool :=
  let n := nat_of_ascii c in (97 <=? n) && (n <=? 122).

Definition is_digit (c : ascii) : bool :=
  let n := nat_of_ascii c in (48 <=? n) && (n <=? 57).

Definition lower_char (c : ascii) : ascii :=
  if is_upper c then ascii_of_nat (nat_of_ascii c + 32) else c.

(** [s.lower()] *)
Fixpoint lower (s : string) : string :=
  match s with
  | EmptyString => EmptyString
  | String c s' => String (lower_char c) (lower s')
  end.

(** [s.startswith(p)] *)
Definition startswith (p s : string) : bool := String.prefix p s.

(** [s.lstrip(...)], the characters to drop given as a predicate. *)
Fixpoint lstrip_with (p : ascii → bool) (s : string) : string :=
  match s with
  | EmptyString => EmptyString
  | String c s' => if p c then lstrip_with p s' else s
  end.

(** [s.rstrip(...)]: a character goes when it is to be dropped and
    everything after it went too. *)
Fixpoint rstrip_with (p : ascii → bool) (s : string) : string :=
  match s with
  | EmptyString => EmptyString
  | String c s' =>
      match rstrip_with p s' with
      | EmptyString => if p c then EmptyString else String c EmptyString
      | r => String c r
      end
  end.

Definition strip_with (p : ascii → bool) (s : string) : string :=
  rstrip_with p (lstrip_with p s).

(** [s.strip()] *)
Definition strip : string → string := strip_with is_space.

(** [s.strip('-')] *)
Definition strip_chars (d : ascii) : string → string :=
  strip_with (λ c, bool_decide (c = d)).

(** [s.replace(old, new)] scans left to right; at an occurrence of [old]
    it emits [new] and jumps over the occurrence.  [skip] counts the
    characters of the current occurrence still to be jumped over. *)
Fixpoint replace_from (old new : string) (skip : nat) (s : string) : string :=
  match s with
  | EmptyString => EmptyString
  | String c s' =>
      match skip with
      | S k => replace_from old new k s'
      | O =>
          if String.prefix old s
          then new +:+ replace_from old new (String.length old - 1) s'
          else String c (replace_from old new 0 s')
      end
  end.

(** With an empty [old], Python puts [new] around every character. *)
Fixpoint interleave (new s : string) : string :=
  match s with
  | EmptyString => EmptyString
  | String c s' => String c (new +:+ interleave new s')
  end.

Definition replace (old new s : string) : string :=
  match old with
  | EmptyString => new +:+ interleave new s
  | _ => replace_from old new 0 s
  end.

(** [re.sub(r'[class]+', r, s)]: every maximal run of characters of the
    class becomes the single character [r].  [in_run] tells whether the
    previous character already belonged to the run. *)
Fixpoint sub_runs (p : ascii → bool) (r : ascii) (in_run : bool) (s : string)
  : string :=
  match s with
  | EmptyString => EmptyString
  | String c s' =>
      if p c
      then (if in_run then sub_runs p r true s'
            else String r (sub_runs p r true s'))
      else String c (sub_runs p r false s')
  end.

Definition re_sub_runs (p : ascii → bool) (r : ascii) (s : string) : string :=
  sub_runs p r false s.

(** [s.split()]: the maximal runs of non-space characters.  The auxiliary
    function returns the token the string starts in the middle of (empty
    when it starts with white space) and the tokens after it. *)
Fixpoint split_aux (s : string) : string * list string :=
  match s with
  | EmptyString => (EmptyString, [])
  | String c s' =>
      let '(w, ws) := split_aux s' in
      if is_space c
      then (EmptyString, match w with EmptyString => ws | _ => w :: ws end)
      else (String c w, ws)
  end.

Definition split (s : string) : list string :=
  let '(w, ws) := split_aux s in
  match w with EmptyString => ws | _ => w :: ws end.

(** Exceptions carry the text [str(e)] gives. *)
Inductive exn := Exn (msg : string).

Definition AttributeError : exn :=
  Exn "'NoneType' object has no attribute 'strip'".
Definition IndexError : exn := Exn "list index out of range".

Inductive result (A : Type) :=
| Ok (a : A)
| Raise (e : exn).
Global Arguments Ok {A} a.
Global Arguments Raise {A} e.

End Py.

(** ** HELPERS *)

(** [normalize_name]: strip, lowercase, drop every ["dr. "], then every
    ["dr "], then every full stop and comma, and collapse white space. *)
Definition normalize_name (name : string) : string :=
  Py.re_sub_runs Py.is_space " "%char
    (Py.replace "," ""
       (Py.replace "." ""
          (Py.replace "dr " ""
             (Py.replace "dr. " ""
                (Py.lower (Py.strip name)))))).

(** The class [[^a-z0-9]] of [make_id]. *)
Definition not_slug_char (c : ascii) : bool :=
  negb (Py.is_lower c || Py.is_digit c).

Definition make_id (name : string) : string :=
  let n := normalize_name name in
  Py.strip_chars "-"%char (Py.re_sub_runs not_slug_char "-"%char n).


(** ** Data model *)

(** A candidate is the partial [dict] a scraper builds.  A key may be
    missing ([None] here); the keys the scrapers set to Python's [None]
    ([phone], [web]) and the name hold [Some None] for it. *)
Module Entry.
Record t := mk {
  name : option (option string);
  org : option string;
  city : option string;
  state : option string;
  phone : option (option string);
  web : option (option string);
  profile_url : option string;
  specs : option (list string);
  accepting : option bool;
  notes : option string;
  source : option string;
  source_location : option string;
}.
End Entry.
Abbreviation candidate := Entry.t.

(** A canonical record, one object of [data/surgeons.json].  A coordinate is
    the number the JSON text denotes; the pipeline never computes with it. *)
Module Surgeon.
Record t := mk {
  id : string;
  name : string;
  fn : string;
  ln : string;
  creds : list string;
  org : string;
  city : string;
  state : string;
  lat : option QArith_base.Q;
  lon : option QArith_base.Q;
  phone : option string;
  web : string;
  specs : list string;
  ins : string;
  accepting : bool;
  notes : string;
  stars : Z;
  source : string;
  verified : bool;
}.
End Surgeon.
Abbreviation surgeon := Surgeon.t.

(** ** MERGE LOGIC *)

Global Instance result_ret : MRet Py.result := λ A a, Py.Ok a.
Global Instance result_bind : MBind Py.result := λ A B f m,
  match m with
  | Py.Ok a => f a
  | Py.Raise e => Py.Raise e
  end.

(** [s.split()[0]] and [s.split()[-1]] *)
Definition first_token (s : string) : Py.result string :=
  match Py.split s with
  | w :: _ => Py.Ok w
  | [] => Py.Raise Py.IndexError
  end.

Definition last_token (s : string) : Py.result string :=
  match last (Py.split s) with
  | Some w => Py.Ok w
  | None => Py.Raise Py.IndexError
  end.

(** [entry.get('web') or entry.get('profile_url', '')] *)
Definition web_or_profile (entry : candidate) : string :=
  match Entry.web entry with
  | Some (Some (String c w)) => String c w
  | _ => default "" (Entry.profile_url entry)
  end.

(** The [record = {...}] literal of [merge_surgeons]. *)
Definition build_record (name : string) (entry : candidate) : Py.result surgeon :=
  fn ← (if Py.startswith "Dr. " name
        then first_token (Py.replace "Dr. " "" name) else Py.Ok "");
  ln ← (if Py.startswith "Dr. " name
        then last_token (Py.replace "Dr. " "" name) else Py.Ok "");
  Py.Ok {|
    Surgeon.id := make_id name;
    Surgeon.name := name;
    Surgeon.fn := fn;
    Surgeon.ln := ln;
    Surgeon.creds := ["MD"];
    Surgeon.org := default "Verify directly" (Entry.org entry);
    Surgeon.city := default "" (Entry.city entry);
    Surgeon.state := default "" (Entry.state entry);
    Surgeon.lat := None;
    Surgeon.lon := None;
    Surgeon.phone := mjoin (Entry.phone entry);
    Surgeon.web := web_or_profile entry;
    Surgeon.specs := default ["Excision Surgery"] (Entry.specs entry);
    Surgeon.ins := "Verify directly";
    Surgeon.accepting := default true (Entry.accepting entry);
    Surgeon.notes :=
      default ("Added via " +:+ default "monthly update" (Entry.source entry)
                 +:+ ". Verify details directly.")
              (Entry.notes entry);
    Surgeon.stars := 4%Z;
    Surgeon.source := default "Monthly Update" (Entry.source entry);
    Surgeon.verified := false;
  |}.

(** The variables the [for] loop of [merge_surgeons] updates. *)
Record merge_state := MergeState {
  existing : list surgeon;
  existing_names : gset string;
  added : nat;
}.

(** [entry.get('name', '').strip()]; [None] has no [strip]. *)
Definition entry_name (entry : candidate) : Py.result string :=
  match Entry.name entry with
  | None => Py.Ok (Py.strip "")
  | Some (Some s) => Py.Ok (Py.strip s)
  | Some None => Py.Raise Py.AttributeError
  end.

(** One iteration of the loop; the two [continue]s leave the state as it is. *)
Definition merge_entry (st : merge_state) (entry : candidate)
  : Py.result merge_state :=
  name ← entry_name entry;
  if bool_decide (name = "") || negb (Py.startswith "Dr." name) then Py.Ok st
  else
    let norm := normalize_name name in
    if bool_decide (norm ∈ existing_names st) then Py.Ok st
    else
      record ← build_record name entry;
      Py.Ok {| existing := existing st ++ [record];
               existing_names := {[norm]} ∪ existing_names st;
               added := S (added st) |}.

(** The loop.  [existing.append] changes the caller's list, so when an
    iteration raises, what was appended before stays: the state reached is
    returned next to the exception. *)
Fixpoint merge_loop (st : merge_state) (new_entries : list candidate)
  : merge_state * option Py.exn :=
  match new_entries with
  | [] => (st, None)
  | entry :: rest =>
      match merge_entry st entry with
      | Py.Ok st' => merge_loop st' rest
      | Py.Raise e => (st, Some e)
      end
  end.

(** [{normalize_name(d['name']) for d in existing}] *)
Definition names_of (existing : list surgeon) : gset string :=
  list_to_set ((λ d, normalize_name (Surgeon.name d)) <$> existing).

(** [merge_surgeons existing new_entries]: the first component is the list
    [existing] as the call leaves it (on a normal return also the list
    returned), the second the count returned or the exception raised. *)
Definition merge_surgeons (existing0 : list surgeon) (new_entries : list candidate)
  : list surgeon * Py.result nat :=
  let '(st, r) :=
    merge_loop {| existing := existing0;
                  existing_names := names_of existing0;
                  added := 0 |} new_entries in
  (existing st,
   match r with
   | None => Py.Ok (added st)
   | Some e => Py.Raise e
   end).

(** ** SCRAPERS: the page loop of [scrape_icarebetter] *)

(** What the loop reads off a card: the text of its first heading or link
    ([None] when it has none), of its location tag, and its first [href]. *)
Record card := Card {
  name_tag : option string;
  loc_tag : option string;
  link_tag : option string;
}.

(** A fetched page, as far as the loop looks at it: the cards the selectors
    (or, when they find none, the heading fallback) give, and whether a
    next-page link is present. *)
Record soup := Soup {
  cards : list card;
  next_btn : bool;
}.

(** The body of [for card in cards]. *)
Definition card_entry (c : card) : option candidate :=
  match name_tag c with
  | None => None
  | Some name =>
      if Py.startswith "Dr." name
      then Some {|
        Entry.name := Some (Some name);
        Entry.org := None;
        Entry.city := None;
        Entry.state := None;
        Entry.phone := None;
        Entry.web := None;
        Entry.profile_url := Some (default "" (link_tag c));
        Entry.specs := Some ["Excision Surgery"];
        Entry.accepting := Some true;
        Entry.notes := None;
        Entry.source := Some "iCareBetter";
        Entry.source_location := Some (default "" (loc_tag c));
      |}
      else None
  end.

Inductive flow := Break | NextPage.

(** One turn of [while True] up to [page += 1].  [get page] is what
    fetching the URL of that page gives, [None] for a failed fetch. *)
Definition page_body (get : nat → option soup) (page : nat)
    (surgeons : list candidate) : list candidate * flow :=
  match get page with
  | None => (surgeons, Break)
  | Some doc =>
      match cards doc with
      | [] => (surgeons, Break)
      | cs =>
          (surgeons ++ omap card_entry cs,
           if next_btn doc then NextPage else Break)
      end
  end.

(** The loop, with the pages requested so far as a trace.  The page number
    only grows and the loop leaves once it is above 40. *)
Equations? page_loop (get : nat → option soup) (page : nat)
    (surgeons : list candidate) (requested : list nat)
  : list candidate * list nat by wf (41 - page) lt :=
  page_loop get page surgeons requested with page_body get page surgeons := {
    | (surgeons', Break) := (surgeons', requested ++ [page]);
    | (surgeons', NextPage) with decide (40 < page + 1) := {
        | left _ := (surgeons', requested ++ [page]);
        | right _ :=
            page_loop get (page + 1) surgeons' (requested ++ [page]) } }.
Proof. lia. Qed.

Definition scrape_icarebetter (get : nat → option soup) : list candidate :=
  fst (page_loop get 1 [] []).

(** The pages one call of [scrape_icarebetter] requests, in order. *)
Definition icarebetter_requests (get : nat → option soup) : list nat :=
  snd (page_loop get 1 [] []).

(** ** MAIN *)

(** A per-source entry of [results_by_source]. *)
Inductive outcome :=
| Counts (scraped added : nat)
| Error (msg : string).

Record run_state := RunState {
  run_existing : list surgeon;
  total_added : nat;
  results_by_source : gmap string outcome;
}.

(** The body of [for source_name, scraper_fn in scrapers], with its
    [try]/[except].  A source is its name and what calling its scraper
    gives in this run: a list of candidates or an exception. *)
Definition run_source (st : run_state)
    (src : string * Py.result (list candidate)) : run_state :=
  let '(source_name, scraped) := src in
  match scraped with
  | Py.Raise (Py.Exn msg) =>
      {| run_existing := run_existing st;
         total_added := total_added st;
         results_by_source := <[source_name := Error msg]> (results_by_source st) |}
  | Py.Ok new_entries =>
      match merge_surgeons (run_existing st) new_entries with
      | (existing', Py.Ok added') =>
          {| run_existing := existing';
             total_added := total_added st + added';
             results_by_source :=
               <[source_name := Counts (length new_entries) added']>
                 (results_by_source st) |}
      | (existing', Py.Raise (Py.Exn msg)) =>
          {| run_existing := existing';
             total_added := total_added st;
             results_by_source :=
               <[source_name := Error msg]> (results_by_source st) |}
      end
  end.

Definition run_sources (st : run_state)
    (scrapers : list (string * Py.result (list candidate))) : run_state :=
  foldl run_source st scrapers.

(** [existing.sort(key=lambda d: (d.get('state', ''), d.get('ln', '').lower()))]:
    tuples compare lexicographically, strings by code point; the sort is
    stable. *)
Definition sort_key (d : surgeon) : string * string :=
  (Surgeon.state d, Py.lower (Surgeon.ln d)).

Definition key_le (k1 k2 : string * string) : bool :=
  match String.compare k1.1 k2.1 with
  | Lt => true
  | Eq => String.leb k1.2 k2.2
  | Gt => false
  end.

Fixpoint insert_sorted (d : surgeon) (l : list surgeon) : list surgeon :=
  match l with
  | [] => [d]
  | d' :: l' =>
      if key_le (sort_key d) (sort_key d') then d :: l
      else d' :: insert_sorted d l'
  end.

Definition sort_surgeons (l : list surgeon) : list surgeon :=
  foldr insert_sorted [] l.

(** An entry of [data/update_log.json]. *)
Record log_entry := LogEntry {
  timestamp : string;
  total_surgeons : nat;
  added_this_run : nat;
  sources : gmap string outcome;
}.

(** [l[-n:]] *)
Definition last_n {A} (n : nat) (l : list A) : list A :=
  drop (length l - n) l.

(** [history.append(log_entry); history = history[-24:]] *)
Definition append_history (history : list log_entry) (e : log_entry)
  : list log_entry :=
  last_n 24 (history ++ [e]).

(** [main], from the loaded files and what the scrapers give to the two
    values written back. *)
Definition main (loaded : list surgeon) (history : list log_entry)
    (scrapers : list (string * Py.result (list candidate))) (now : string)
  : list surgeon * list log_entry :=
  let st := run_sources {| run_existing := loaded; total_added := 0;
                           results_by_source := ∅ |} scrapers in
  let sorted := sort_surgeons (run_existing st) in
  (sorted,
   append_history history
     {| timestamp := now;
        total_surgeons := length sorted;
        added_this_run := total_added st;
        sources := results_by_source st |}).

(** ** The name shape the extractors look for *)

(** The states of the automaton of [[A-Z][a-z]+(?: [A-Z][a-z]+)+]: at the
    start of a word, after its capital, inside its lowercase tail. *)
Inductive word_state := AtWordStart | AfterCapital | InWord.

(** [words] counts the words begun so far; the pattern wants at least two. *)
Fixpoint match_words (q : word_state) (words : nat) (s : string) : bool :=
  match s with
  | EmptyString =>
      match q with
      | InWord => 2 <=? words
      | _ => false
      end
  | String c s' =>
      match q with
      | AtWordStart => Py.is_upper c && match_words AfterCapital (S words) s'
      | AfterCapital => Py.is_lower c && match_words InWord words s'
      | InWord =>
          if Py.is_lower c then match_words InWord words s'
          else bool_decide (c = " "%char) && match_words AtWordStart words s'
      end
  end.

(** A whole-string match of [Dr\. [A-Z][a-z]+(?: [A-Z][a-z]+)+], the
    pattern [scrape_endofendo] and [scrape_pelvic_rehab] take names with. *)
Definition title_name (name : string) : bool :=
  match name with
  | String "D" (String "r" (String "." (String " " s))) =>
      match_words AtWordStart 0 s
  | _ => false
  end.

(** ** Vocabulary of the statements *)

Definition first_char (s : string) : option ascii :=
  match s with
  | EmptyString => None
  | String c _ => Some c
  end.

Fixpoint last_char (s : string) : option ascii :=
  match s with
  | EmptyString => None
  | String c EmptyString => Some c
  | String _ s' => last_char s'
  end.

Fixpoint all_chars (p : ascii → bool) (s : string) : bool :=
  match s with
  | EmptyString => true
  | String c s' => p c && all_chars p s'
  end.

(** The characters of [[a-z0-9-]]. *)
Definition slug_char (c : ascii) : bool :=
  Py.is_lower c || Py.is_digit c || bool_decide (c = "-"%char).

(** Whether [old] occurs somewhere in [s]. *)
Fixpoint occurs (old s : string) : bool :=
  match s with
  | EmptyString => String.prefix old EmptyString
  | String _ s' => String.prefix old s || occurs old s'
  end.

(** A candidate that carries a name and nothing else. *)
Definition named (name : string) : candidate :=
  {| Entry.name := Some (Some name);
     Entry.org := None; Entry.city := None; Entry.state := None;
     Entry.phone := None; Entry.web := None; Entry.profile_url := None;
     Entry.specs := None; Entry.accepting := None; Entry.notes := None;
     Entry.source := None; Entry.source_location := None |}.

(** The state [merge_surgeons] starts its loop in. *)
Definition merge_init (existing0 : list surgeon) : merge_state :=
  {| existing := existing0; existing_names := names_of existing0; added := 0 |}.

(** A state with its counter started [k] higher. *)
Definition bump (k : nat) (st : merge_state) : merge_state :=
  {| existing := existing st; existing_names := existing_names st;
     added := k + added st |}.

(** The key set is the set of keys of the records. *)
Definition coherent (st : merge_state) : Prop :=
  existing_names st = names_of (existing st).

(** What a record synthesised from [entry] holds besides its name parts. *)
Definition filled_from (entry : candidate) (d : surgeon) : Prop :=
  Surgeon.org d = default "Verify directly" (Entry.org entry)
  ∧ Surgeon.city d = default "" (Entry.city entry)
  ∧ Surgeon.state d = default "" (Entry.state entry)
  ∧ Surgeon.web d =
      match Entry.web entry with
      | Some (Some w) =>
          if bool_decide (w = "") then default "" (Entry.profile_url entry)
          else w
      | _ => default "" (Entry.profile_url entry)
      end
  ∧ Surgeon.specs d = default ["Excision Surgery"] (Entry.specs entry)
  ∧ Surgeon.accepting d = default true (Entry.accepting entry)
  ∧ Surgeon.source d = default "Monthly Update" (Entry.source entry)
  ∧ Surgeon.ins d = "Verify directly"
  ∧ Surgeon.creds d = ["MD"]
  ∧ Surgeon.stars d = 4%Z
  ∧ Surgeon.lat d = None
  ∧ Surgeon.lon d = None
  ∧ Surgeon.phone d = mjoin (Entry.phone entry)
  ∧ Surgeon.verified d = false
  ∧ Surgeon.notes d =
      match Entry.notes entry with
      | Some n => n
      | None =>
          "Added via " +:+ default "monthly update" (Entry.source entry)
            +:+ ". Verify details directly."
      end.

(** The rule "a text field the candidate lacks gets the sentinel", for the
    fields that have a fallback in the record literal. *)
Definition absent_get_sentinel (sentinel : string) : Prop :=
  ∀ E entry d,
    merge_surgeons E [entry] = (E ++ [d], Py.Ok 1) →
    (Entry.org entry = None → Surgeon.org d = sentinel)
    ∧ (Entry.city entry = None → Surgeon.city d = sentinel)
    ∧ (Entry.state entry = None → Surgeon.state d = sentinel)
    ∧ (Entry.web entry = None → Entry.profile_url entry = None →
       Surgeon.web d = sentinel).

(** A source whose turn of the loop ends in the [except] branch: its
    scraper raised, or [merge_surgeons] did on what it returned. *)
Definition source_fails (st : run_state)
    (src : string * Py.result (list candidate)) (msg : string) : Prop :=
  src.2 = Py.Raise (Py.Exn msg)
  ∨ ∃ new_entries existing',
      src.2 = Py.Ok new_entries
      ∧ merge_surgeons (run_existing st) new_entries
        = (existing', Py.Raise (Py.Exn msg)).

(** ** Further vocabulary *)

(** No two neighbouring characters of [s] are both [d]. *)
Fixpoint no_repeat (d : ascii) (s : string) : bool :=
  match s with
  | EmptyString => true
  | String c s' =>
      negb (bool_decide (c = d) && bool_decide (first_char s' = Some d))
      && no_repeat d s'
  end.

(** The dedup key of a stored record. *)
Definition record_key (d : surgeon) : string :=
  normalize_name (Surgeon.name d).

(** The name [merge_surgeons] works with for a candidate, when the
    candidate gets past both checks on it: it is a string, and stripped it
    is not empty and starts with the title. *)
Definition gate_name (entry : candidate) : option string :=
  match entry_name entry with
  | Py.Ok name =>
      if bool_decide (name = "") || negb (Py.startswith "Dr." name)
      then None else Some name
  | Py.Raise _ => None
  end.

(** The keys of the candidates that get past the title check. *)
Definition candidate_keys (C : list candidate) : gset string :=
  list_to_set (normalize_name <$> omap gate_name C).

(** What one page of the directory contributes. *)
Definition page_entries (get : nat → option soup) (page : nat)
  : list candidate :=
  match get page with
  | Some doc => omap card_entry (cards doc)
  | None => []
  end.

(** Whether the loop goes on after a page: it was fetched, has cards and a
    next-page link. *)
Definition continues (get : nat → option soup) (page : nat) : bool :=
  match get page with
  | Some doc =>
      match cards doc with
      | [] => false
      | _ => next_btn doc
      end
  | None => false
  end.

(** [d1] may stand before [d2] in the saved list. *)
Definition key_before (d1 d2 : surgeon) : Prop :=
  key_le (sort_key d1) (sort_key d2) = true.

(** ** The name search of [scrape_endofendo] and [scrape_pelvic_rehab] *)

(** [s[:n]] *)
Fixpoint slice_to (n : nat) (s : string) : string :=
  match n, s with
  | S n', String c s' => String c (slice_to n' s')
  | _, _ => EmptyString
  end.

(** Reaching the state [q] after [n] characters is a match when the state
    is inside a word and at least two words were begun. *)
Definition accepted (q : word_state) (words n : nat) (best : option nat)
  : option nat :=
  match q with
  | InWord => if 2 <=? words then Some n else best
  | _ => best
  end.

(** The words [[A-Z][a-z]+(?: [A-Z][a-z]+)+] are matched greedily and
    nothing follows them in the pattern, so the match at a position is the
    longest one: the automaton is run as far as it goes and the last length
    at which it accepted is kept. *)
Fixpoint longest_words (q : word_state) (words n : nat) (best : option nat)
    (s : string) : option nat :=
  let best' := accepted q words n best in
  match s with
  | EmptyString => best'
  | String c s' =>
      match q with
      | AtWordStart =>
          if Py.is_upper c
          then longest_words AfterCapital (S words) (S n) best' s'
          else best'
      | AfterCapital =>
          if Py.is_lower c
          then longest_words InWord words (S n) best' s'
          else best'
      | InWord =>
          if Py.is_lower c
          then longest_words InWord words (S n) best' s'
          else if bool_decide (c = " "%char)
               then longest_words AtWordStart words (S n) best' s'
               else best'
      end
  end.

(** The length of the match of [Dr\. [A-Z][a-z]+(?: [A-Z][a-z]+)+] at the
    start of [s], if there is one. *)
Definition match_name_at (s : string) : option nat :=
  match s with
  | String "D" (String "r" (String "." (String " " s'))) =>
      longest_words AtWordStart 0 4 None s'
  | _ => None
  end.

(** [re.search(r'(Dr\. [A-Z][a-z]+(?: [A-Z][a-z]+)+)', text)] and its
    [group(1)]: the match at the leftmost position that has one. *)
Fixpoint search_name (text : string) : option string :=
  match match_name_at text with
  | Some n => Some (slice_to n text)
  | None =>
      match text with
      | EmptyString => None
      | String _ rest => search_name rest
      end
  end.

(** * Properties *)

(** ** Strings *)

Section string_facts.
Implicit Types (s t old new : string) (c d : ascii) (p : ascii → bool).

Lemma append_cons c s t : String c s +:+ t = String c (s +:+ t).
Proof. reflexivity. Qed.

Lemma append_nil_l t : "" +:+ t = t.
Proof. reflexivity. Qed.

Lemma last_char_cons c s d :
  last_char s = Some d → last_char (String c s) = Some d.
Proof. destruct s; [discriminate | auto]. Qed.

Lemma last_char_None s : last_char s = None → s = "".
Proof.
  induction s as [|c s IH]; [done|].
  destruct s as [|c' s']; [discriminate|].
  intros H. specialize (IH H). discriminate.
Qed.

Lemma last_char_append s t d :
  last_char t = Some d → last_char (s +:+ t) = Some d.
Proof.
  intros Ht. induction s as [|c s IH]; [done|].
  rewrite append_cons. by apply last_char_cons.
Qed.

Lemma prefix_split old s :
  String.prefix old s = true → ∃ t, s = old +:+ t.
Proof.
  revert s. induction old as [|c old IH]; intros s H.
  - by exists s.
  - destruct s as [|c' s]; [discriminate|]. simpl in H.
    destruct (ascii_dec c c') as [->|]; [|discriminate].
    destruct (IH _ H) as [t ->]. by exists t.
Qed.

Lemma prefix_append old t : String.prefix old (old +:+ t) = true.
Proof.
  induction old as [|c old IH]; [by destruct t|].
  rewrite append_cons. simpl. by destruct (ascii_dec c c).
Qed.

Lemma length_append s t :
  String.length (s +:+ t) = String.length s + String.length t.
Proof. induction s as [|c s IH]; [done|]. rewrite append_cons. simpl. lia. Qed.

Lemma append_nil_r s : s +:+ "" = s.
Proof. induction s as [|c s IH]; [done|]. rewrite append_cons. by f_equal. Qed.

Lemma length_zero s : String.length s = 0 → s = "".
Proof. by destruct s. Qed.

(** *** [lower] *)

Lemma lower_char_lower c : Py.is_lower c = true → Py.lower_char c = c.
Proof. by destruct c as [[] [] [] [] [] [] [] []]. Qed.

Lemma last_char_lower s c :
  last_char s = Some c → last_char (Py.lower s) = Some (Py.lower_char c).
Proof.
  induction s as [|c0 s IH]; [done|].
  destruct s as [|c1 s]; [by intros [= ->]|].
  intros H. specialize (IH H). simpl in *. exact IH.
Qed.

(** *** [strip] *)

Lemma rstrip_keeps p s c :
  last_char s = Some c → p c = false → Py.rstrip_with p s = s.
Proof.
  intros Hl Hp. induction s as [|c0 s IH]; [done|].
  destruct s as [|c1 s].
  - injection Hl as ->. simpl. by rewrite Hp.
  - specialize (IH Hl). cbn [Py.rstrip_with] in *. by rewrite IH.
Qed.

Lemma last_char_lstrip p s c :
  last_char s = Some c → p c = false →
  last_char (Py.lstrip_with p s) = Some c.
Proof.
  intros Hl Hp. induction s as [|c0 s IH]; [done|].
  cbn [Py.lstrip_with]. destruct (p c0) eqn:Hc0; [|done].
  apply IH. destruct s as [|c1 s]; [|done].
  injection Hl as ->. congruence.
Qed.

Lemma last_char_rstrip p s c :
  last_char (Py.rstrip_with p s) = Some c → p c = false.
Proof.
  revert c. induction s as [|c0 s IH]; intros c; [done|].
  cbn [Py.rstrip_with].
  destruct (Py.rstrip_with p s) as [|c1 r] eqn:Hr.
  - destruct (p c0) eqn:Hc0; [done|]. by intros [= <-].
  - intros H. apply IH. exact H.
Qed.

Lemma first_char_lstrip p s c :
  first_char (Py.lstrip_with p s) = Some c → p c = false.
Proof.
  induction s as [|c0 s IH]; [done|].
  cbn [Py.lstrip_with]. destruct (p c0) eqn:Hc0; [done|].
  by intros [= <-].
Qed.

Lemma first_char_rstrip p s c :
  first_char (Py.rstrip_with p s) = Some c → first_char s = Some c.
Proof.
  destruct s as [|c0 s]; [done|]. cbn [Py.rstrip_with].
  destruct (Py.rstrip_with p s); [destruct (p c0)|]; done.
Qed.

Lemma all_chars_lstrip p q s :
  all_chars q s = true → all_chars q (Py.lstrip_with p s) = true.
Proof.
  induction s as [|c0 s IH]; [done|]. intros H.
  cbn [Py.lstrip_with]. destruct (p c0); [|done].
  apply IH. simpl in H. by apply andb_prop in H as [_ ?].
Qed.

Lemma all_chars_rstrip p q s :
  all_chars q s = true → all_chars q (Py.rstrip_with p s) = true.
Proof.
  induction s as [|c0 s IH]; [done|]. intros H.
  simpl in H. apply andb_prop in H as [H0 H1]. specialize (IH H1).
  cbn [Py.rstrip_with]. destruct (Py.rstrip_with p s).
  - destruct (p c0); [done|]. simpl. by rewrite H0.
  - simpl in *. by rewrite H0, IH.
Qed.

(** What is left of [strip] neither starts nor ends with a dropped
    character. *)
Lemma strip_first p s c :
  first_char (Py.strip_with p s) = Some c → p c = false.
Proof.
  intros H. apply first_char_rstrip in H. by apply first_char_lstrip in H.
Qed.

Lemma strip_last p s c :
  last_char (Py.strip_with p s) = Some c → p c = false.
Proof. apply last_char_rstrip. Qed.

Lemma strip_keeps_last p s c :
  last_char s = Some c → p c = false →
  last_char (Py.strip_with p s) = Some c.
Proof.
  intros Hl Hp. unfold Py.strip_with.
  pose proof (last_char_lstrip p s c Hl Hp) as H.
  by rewrite (rstrip_keeps p _ c H Hp).
Qed.

(** *** [replace] *)

(** The last character outlives [replace] when [old] ends otherwise. *)
Lemma last_char_replace_from old new s c d :
  last_char old = Some d → c ≠ d →
  ∀ skip, last_char s = Some c → skip < String.length s →
  last_char (Py.replace_from old new skip s) = Some c.
Proof.
  intros Hold Hcd. induction s as [|c0 s IH]; intros skip Hl Hk; [done|].
  destruct skip as [|k].
  - cbn [Py.replace_from].
    destruct (String.prefix old (String c0 s)) eqn:Hp.
    + apply prefix_split in Hp as [t Ht].
      assert (old ≠ "") as Hne by (intros ->; discriminate).
      assert (t ≠ "") as Htne.
      { intros ->. rewrite append_nil_r in Ht. congruence. }
      assert (String.length old ≤ String.length s) as Hlen.
      { apply (f_equal String.length) in Ht. rewrite length_append in Ht.
        simpl in Ht. destruct t; [done|]. simpl in Ht. lia. }
      assert (String.length old ≠ 0) by (destruct old; done).
      destruct s as [|c1 s]; [simpl in Hlen; lia|].
      apply last_char_append, IH; [exact Hl | lia].
    + destruct s as [|c1 s]; [done|].
      apply last_char_cons, IH; [exact Hl | simpl; lia].
  - cbn [Py.replace_from]. simpl in Hk.
    destruct s as [|c1 s]; [simpl in Hk; lia|].
    apply IH; [exact Hl | lia].
Qed.

Lemma last_char_replace old new s c d :
  last_char old = Some d → c ≠ d → last_char s = Some c →
  last_char (Py.replace old new s) = Some c.
Proof.
  intros Hold Hcd Hl. destruct old as [|o old]; [done|].
  unfold Py.replace. eapply last_char_replace_from; eauto.
  destruct s; [done | simpl; lia].
Qed.

(** Without an occurrence of [old], [replace] changes nothing. *)
Lemma replace_from_absent old new s :
  occurs old s = false → Py.replace_from old new 0 s = s.
Proof.
  induction s as [|c0 s IH]; [done|]. intros H.
  cbn [occurs] in H. apply orb_false_elim in H as [Hp Ho].
  cbn [Py.replace_from]. rewrite Hp. f_equal. by apply IH.
Qed.

Lemma replace_from_skip old new u t :
  Py.replace_from old new (String.length u) (u +:+ t)
  = Py.replace_from old new 0 t.
Proof.
  induction u as [|c u IH]; [by destruct t|].
  rewrite append_cons. exact IH.
Qed.

(** At an occurrence, [new] is emitted and the scan goes on behind it. *)
Lemma replace_from_occurrence old new t :
  old ≠ "" →
  Py.replace_from old new 0 (old +:+ t)
  = new +:+ Py.replace_from old new 0 t.
Proof.
  intros Hne. pose proof (prefix_append old t) as Hp.
  destruct old as [|o old]; [done|]. rewrite append_cons in *.
  cbn [Py.replace_from]. rewrite Hp. f_equal.
  cbn [String.length]. rewrite Nat.sub_1_r. cbn [Nat.pred].
  apply replace_from_skip.
Qed.

(** *** [re.sub] of runs *)

Lemma sub_runs_cons p r b c s :
  Py.sub_runs p r b (String c s)
  = if p c
    then (if b then Py.sub_runs p r true s
          else String r (Py.sub_runs p r true s))
    else String c (Py.sub_runs p r false s).
Proof. reflexivity. Qed.

Lemma last_char_sub_runs p r b s c :
  last_char s = Some c → p c = false →
  last_char (Py.sub_runs p r b s) = Some c.
Proof.
  intros Hl Hp. revert b. induction s as [|c0 s IH]; intros b; [done|].
  destruct s as [|c1 s].
  - injection Hl as ->. simpl. by rewrite Hp.
  - specialize (IH Hl). rewrite sub_runs_cons.
    destruct (p c0); [destruct b|]; auto using last_char_cons.
Qed.

Lemma all_chars_sub_runs p r b s :
  all_chars (λ c, negb (p c) || bool_decide (c = r)) (Py.sub_runs p r b s)
  = true.
Proof.
  revert b. induction s as [|c0 s IH]; intros b; [done|].
  cbn [Py.sub_runs]. destruct (p c0) eqn:Hc0.
  - destruct b; [apply IH|]. cbn [all_chars]. rewrite IH.
    rewrite bool_decide_eq_true_2 by done. by rewrite orb_true_r.
  - cbn [all_chars]. by rewrite Hc0, IH.
Qed.

Lemma all_chars_impl (p q : ascii → bool) s :
  (∀ c, p c = true → q c = true) →
  all_chars p s = true → all_chars q s = true.
Proof.
  intros Hpq. induction s as [|c0 s IH]; [done|]. simpl.
  intros [H0 H1]%andb_prop. by rewrite (Hpq _ H0), IH.
Qed.

(** *** [split] *)

Lemma split_aux_nonempty s c :
  last_char s = Some c → Py.is_space c = false →
  (Py.split_aux s).1 ≠ "" ∨ (Py.split_aux s).2 ≠ [].
Proof.
  intros Hl Hc. induction s as [|c0 s IH]; [done|].
  cbn [Py.split_aux]. destruct s as [|c1 s].
  - injection Hl as ->. simpl. rewrite Hc. by left.
  - specialize (IH Hl). destruct (Py.split_aux (String c1 s)) as [w ws].
    destruct (Py.is_space c0); simpl in *; [right|by left].
    destruct IH as [?|?]; by destruct w.
Qed.

Lemma split_nonempty s c :
  last_char s = Some c → Py.is_space c = false → Py.split s ≠ [].
Proof.
  intros Hl Hc. pose proof (split_aux_nonempty s c Hl Hc) as H.
  unfold Py.split. destruct (Py.split_aux s) as [w ws]. simpl in H.
  destruct H; by destruct w.
Qed.

End string_facts.

(** ** Identifiers *)

Lemma lower_letter_facts c :
  Py.is_lower c = true →
  Py.is_space c = false ∧ not_slug_char c = false
  ∧ c ≠ " "%char ∧ c ≠ "."%char ∧ c ≠ ","%char ∧ c ≠ "-"%char.
Proof.
  destruct c as [[] [] [] [] [] [] [] []]; intros H; try discriminate H;
    by repeat split.
Qed.

Lemma match_words_last q words s :
  match_words q words s = true →
  (s = "" ∧ q = InWord) ∨ ∃ c, last_char s = Some c ∧ Py.is_lower c = true.
Proof.
  revert q words. induction s as [|c s IH]; intros q words H.
  - destruct q; try discriminate. by left.
  - right. cbn [match_words] in H.
    assert (∀ q' w', q' ≠ InWord ∨ Py.is_lower c = true →
              match_words q' w' s = true →
              ∃ c', last_char (String c s) = Some c' ∧ Py.is_lower c' = true)
      as Hstep.
    { intros q' w' Hq Hm. destruct (IH _ _ Hm) as [[-> ->]|(c' & Hl & Hc')].
      - destruct Hq as [?|?]; [done|]. by exists c.
      - exists c'. split; [by apply last_char_cons | done]. }
    destruct q.
    + apply andb_prop in H as [_ H].
      apply (Hstep AfterCapital (S words)); [by left | exact H].
    + apply andb_prop in H as [Hc H].
      apply (Hstep InWord words); [by right | exact H].
    + destruct (Py.is_lower c) eqn:Hc.
      * apply (Hstep InWord words); [by right | exact H].
      * apply andb_prop in H as [_ H].
        apply (Hstep AtWordStart words); [by left | exact H].
Qed.

Lemma title_name_last name :
  title_name name = true →
  ∃ c, last_char name = Some c ∧ Py.is_lower c = true.
Proof.
  unfold title_name. intros H.
  repeat (match type of H with
          | match ?x with _ => _ end = true => destruct x; try discriminate
          end).
  apply match_words_last in H as [[_ [=]]|(c & Hl & Hc)].
  exists c. split; [|done]. by do 4 apply last_char_cons.
Qed.

(** A name that ends in a lowercase letter keeps it as the last character
    of its key and of its identifier. *)
Lemma normalize_name_last name c :
  last_char name = Some c → Py.is_lower c = true →
  last_char (normalize_name name) = Some c.
Proof.
  intros Hl Hc. destruct (lower_letter_facts c Hc) as (Hs & _ & ? & ? & ? & _).
  unfold normalize_name, Py.re_sub_runs, Py.strip.
  apply last_char_sub_runs; [|done].
  apply (last_char_replace _ _ _ _ ","%char); [done..|].
  apply (last_char_replace _ _ _ _ "."%char); [done..|].
  apply (last_char_replace _ _ _ _ " "%char); [done..|].
  apply (last_char_replace _ _ _ _ " "%char); [done..|].
  pose proof (strip_keeps_last Py.is_space name c Hl Hs) as Hstrip.
  apply last_char_lower in Hstrip. by rewrite (lower_char_lower c Hc) in Hstrip.
Qed.

Lemma make_id_last name c :
  last_char name = Some c → Py.is_lower c = true →
  last_char (make_id name) = Some c.
Proof.
  intros Hl Hc. destruct (lower_letter_facts c Hc) as (_ & Hn & _ & _ & _ & Hd).
  unfold make_id, Py.strip_chars, Py.re_sub_runs.
  apply strip_keeps_last; [|by apply bool_decide_eq_false_2].
  apply last_char_sub_runs; [|done]. by apply normalize_name_last.
Qed.

(** Whatever the name, the identifier is made of [[a-z0-9-]] and has no
    hyphen at either end. *)
Lemma make_id_chars name : all_chars slug_char (make_id name) = true.
Proof.
  unfold make_id, Py.strip_chars, Py.strip_with, Py.re_sub_runs.
  apply all_chars_rstrip, all_chars_lstrip.
  eapply all_chars_impl; [|apply all_chars_sub_runs].
  intros c. unfold slug_char, not_slug_char. rewrite negb_involutive. done.
Qed.

Lemma make_id_first name : first_char (make_id name) ≠ Some "-"%char.
Proof. intros H. by apply strip_first in H. Qed.

Lemma make_id_end name : last_char (make_id name) ≠ Some "-"%char.
Proof. intros H. by apply strip_last in H. Qed.

(** C7.  For a name of the shape [Dr. Given Family] the identifier is not
    empty, consists of characters of [[a-z0-9-]] only, neither starts nor
    ends with a hyphen, and equal names give equal identifiers. *)
Theorem make_id_well_formed name :
  title_name name = true →
  make_id name ≠ ""
  ∧ all_chars slug_char (make_id name) = true
  ∧ first_char (make_id name) ≠ Some "-"%char
  ∧ last_char (make_id name) ≠ Some "-"%char
  ∧ ∀ name', name' = name → make_id name' = make_id name.
Proof.
  intros (c & Hl & Hc)%title_name_last.
  pose proof (make_id_last name c Hl Hc) as Hid.
  split; [by intros Heq; rewrite Heq in Hid|].
  split; [apply make_id_chars|].
  split; [apply make_id_first|].
  split; [apply make_id_end|]. by intros ? ->.
Qed.

Lemma make_id_well_formed_witness :
  title_name "Dr. Jane Smith" = true
  ∧ make_id "Dr. Jane Smith" = "jane-smith"
  ∧ make_id "Dr. Jane Smith" ≠ "".
Proof.
  split; [reflexivity|]. split; [reflexivity|].
  exact (proj1 (make_id_well_formed "Dr. Jane Smith" eq_refl)).
Defined.

(** ** The merge engine *)

Section merge_facts.
Implicit Types (st : merge_state) (entry : candidate) (d : surgeon).
Implicit Types (E : list surgeon) (C : list candidate).

Lemma web_or_profile_spec entry :
  web_or_profile entry
  = match Entry.web entry with
    | Some (Some w) =>
        if bool_decide (w = "") then default "" (Entry.profile_url entry)
        else w
    | _ => default "" (Entry.profile_url entry)
    end.
Proof.
  unfold web_or_profile. by destruct (Entry.web entry) as [[[|c w]|]|].
Qed.

Lemma build_record_inv name entry d :
  build_record name entry = Py.Ok d →
  Surgeon.name d = name ∧ Surgeon.id d = make_id name ∧ filled_from entry d
  ∧ (if Py.startswith "Dr. " name
     then first_token (Py.replace "Dr. " "" name) = Py.Ok (Surgeon.fn d)
          ∧ last_token (Py.replace "Dr. " "" name) = Py.Ok (Surgeon.ln d)
     else Surgeon.fn d = "" ∧ Surgeon.ln d = "").
Proof.
  unfold build_record, mbind, result_bind.
  destruct (Py.startswith "Dr. " name).
  - destruct (first_token _) as [f|]; [|discriminate].
    destruct (last_token _) as [l|]; [|discriminate].
    intros [= <-]. unfold filled_from. cbn -[web_or_profile].
    rewrite web_or_profile_spec. by destruct (Entry.notes entry).
  - intros [= <-]. unfold filled_from. cbn -[web_or_profile].
    rewrite web_or_profile_spec. by destruct (Entry.notes entry).
Qed.

(** The two subscripts [split()[0]] and [split()[-1]] are in range for a
    name that does not end in white space, as a stripped one. *)
Lemma build_record_returns name entry c :
  last_char name = Some c → Py.is_space c = false →
  ∃ d, build_record name entry = Py.Ok d.
Proof.
  intros Hl Hc. unfold build_record, mbind, result_bind.
  destruct (Py.startswith "Dr. " name); [|eauto].
  assert (Py.split (Py.replace "Dr. " "" name) ≠ []) as Hne.
  { apply (split_nonempty _ c); [|done].
    apply (last_char_replace _ _ _ _ " "%char); [done| |done].
    intros ->. discriminate. }
  unfold first_token, last_token.
  destruct (Py.split _) as [|w ws] eqn:Hsp; [done|].
  destruct (last (w :: ws)) eqn:Hlast; [eauto|].
  by apply last_None in Hlast.
Qed.

Lemma entry_name_stripped entry name c :
  entry_name entry = Py.Ok name → last_char name = Some c →
  Py.is_space c = false.
Proof.
  unfold entry_name. destruct (Entry.name entry) as [[s|]|];
    intros [= <-]; try done; apply strip_last.
Qed.

(** An iteration that returns either leaves the state alone or appends
    the record built for a name that passed both checks. *)
Lemma merge_entry_inv st entry st' :
  merge_entry st entry = Py.Ok st' →
  (st' = st
   ∧ ∀ name, entry_name entry = Py.Ok name →
       Py.startswith "Dr." name = true →
       normalize_name name ∈ existing_names st)
  ∨ ∃ name d,
      entry_name entry = Py.Ok name
      ∧ Py.startswith "Dr." name = true
      ∧ (normalize_name name ∉ existing_names st)
      ∧ build_record name entry = Py.Ok d
      ∧ st' = {| existing := existing st ++ [d];
                 existing_names := {[normalize_name name]} ∪ existing_names st;
                 added := S (added st) |}.
Proof.
  unfold merge_entry, mbind, result_bind.
  destruct (entry_name entry) as [name|] eqn:Hn; [|discriminate].
  destruct (bool_decide (name = "")) eqn:Hempty.
  { apply bool_decide_eq_true in Hempty as ->. intros [= <-]. left.
    split; [done|]. intros ? [= <-]. done. }
  apply bool_decide_eq_false in Hempty.
  destruct (Py.startswith "Dr." name) eqn:Hdr; simpl.
  2:{ intros [= <-]. left. split; [done|]. intros ? [= <-]. congruence. }
  case_bool_decide as Hin.
  { intros [= <-]. left. split; [done|]. by intros ? [= <-]. }
  destruct (build_record name entry) as [d|] eqn:Hb; [|discriminate].
  intros [= <-]. right. by exists name, d.
Qed.

(** An iteration raises only on a name that is [None]. *)
Lemma merge_entry_raises st entry e :
  merge_entry st entry = Py.Raise e →
  Entry.name entry = Some None ∧ e = Py.AttributeError.
Proof.
  unfold merge_entry, mbind, result_bind.
  destruct (entry_name entry) as [name|] eqn:Hn.
  - destruct (bool_decide (name = "")) eqn:Hempty; [discriminate|].
    apply bool_decide_eq_false in Hempty.
    destruct (Py.startswith "Dr." name) eqn:Hdr; simpl; [|discriminate].
    case_bool_decide; [discriminate|].
    destruct (last_char name) as [c|] eqn:Hl;
      [|by apply last_char_None in Hl].
    destruct (build_record_returns name entry c Hl) as [d ->];
      [by eapply entry_name_stripped | discriminate].
  - intros [= <-]. unfold entry_name in Hn.
    destruct (Entry.name entry) as [[?|]|]; [discriminate| |discriminate].
    by injection Hn as <-.
Qed.

Lemma names_of_snoc E d :
  names_of (E ++ [d]) = {[normalize_name (Surgeon.name d)]} ∪ names_of E.
Proof.
  unfold names_of. rewrite fmap_app, list_to_set_app_L. simpl.
  rewrite union_empty_r_L. apply (comm_L (∪)).
Qed.

Lemma merge_entry_coherent st entry st' :
  merge_entry st entry = Py.Ok st' → coherent st → coherent st'.
Proof.
  intros [[-> _]|(name & d & _ & _ & _ & Hb & ->)]%merge_entry_inv Hco;
    [done|].
  unfold coherent in *. simpl. rewrite names_of_snoc, Hco.
  by apply build_record_inv in Hb as (-> & _).
Qed.

Lemma merge_entry_names st entry st' :
  merge_entry st entry = Py.Ok st' →
  existing_names st ⊆ existing_names st'.
Proof.
  intros [[-> _]|(name & d & _ & _ & _ & _ & ->)]%merge_entry_inv;
    simpl; set_solver.
Qed.

Lemma merge_entry_grows st entry st' :
  merge_entry st entry = Py.Ok st' →
  ∃ new, existing st' = existing st ++ new
         ∧ added st' = added st + length new.
Proof.
  intros [[-> _]|(name & d & _ & _ & _ & _ & ->)]%merge_entry_inv.
  - exists []. by rewrite app_nil_r, Nat.add_0_r.
  - exists [d]. simpl. split; [done | lia].
Qed.

(** Once the keys an iteration saw or added are all known, the same entry
    is skipped. *)
Lemma merge_entry_seen st entry st' st2 :
  merge_entry st entry = Py.Ok st' →
  existing_names st' ⊆ existing_names st2 →
  merge_entry st2 entry = Py.Ok st2.
Proof.
  intros Hm Hsub. unfold merge_entry, mbind, result_bind.
  destruct (entry_name entry) as [name|] eqn:Hn.
  2:{ unfold merge_entry, mbind, result_bind in Hm. by rewrite Hn in Hm. }
  destruct (bool_decide (name = "")); [done|].
  destruct (Py.startswith "Dr." name) eqn:Hdr; simpl; [|done].
  rewrite bool_decide_eq_true_2; [done|].
  apply merge_entry_inv in Hm
    as [[-> Hin]|(name' & d & Hn' & _ & _ & _ & ->)].
  - apply Hsub. by apply Hin.
  - rewrite Hn in Hn'. injection Hn' as <-. apply Hsub. simpl. set_solver.
Qed.

(** The counter is only ever incremented: starting it higher shifts it. *)
Lemma merge_entry_bump k st entry :
  merge_entry (bump k st) entry
  = match merge_entry st entry with
    | Py.Ok st' => Py.Ok (bump k st')
    | Py.Raise e => Py.Raise e
    end.
Proof.
  unfold merge_entry, mbind, result_bind.
  destruct (entry_name entry) as [name|]; [|done].
  destruct (bool_decide (name = "") || negb (Py.startswith "Dr." name));
    [done|]. simpl.
  case_bool_decide; [done|].
  destruct (build_record name entry); [|done].
  unfold bump. simpl. do 2 f_equal. lia.
Qed.

(** *** The loop *)

Lemma merge_loop_app st C1 C2 :
  merge_loop st (C1 ++ C2)
  = match merge_loop st C1 with
    | (st1, None) => merge_loop st1 C2
    | (st1, Some e) => (st1, Some e)
    end.
Proof.
  revert st. induction C1 as [|entry C1 IH]; intros st; [done|].
  simpl. destruct (merge_entry st entry); [apply IH | done].
Qed.

Lemma merge_loop_coherent st C :
  coherent st → coherent (merge_loop st C).1.
Proof.
  revert st. induction C as [|entry C IH]; intros st Hco; [done|].
  simpl. destruct (merge_entry st entry) as [st'|] eqn:Hm; [|done].
  eauto using merge_entry_coherent.
Qed.

Lemma merge_loop_names st C :
  existing_names st ⊆ existing_names (merge_loop st C).1.
Proof.
  revert st. induction C as [|entry C IH]; intros st; [done|].
  simpl. destruct (merge_entry st entry) as [st'|] eqn:Hm; [|done].
  etrans; [by eapply merge_entry_names | apply IH].
Qed.

(** Records are only appended, and the counter counts the appended ones. *)
Lemma merge_loop_grows st C :
  ∃ new, existing (merge_loop st C).1 = existing st ++ new
         ∧ added (merge_loop st C).1 = added st + length new.
Proof.
  revert st. induction C as [|entry C IH]; intros st.
  - exists []. simpl. by rewrite app_nil_r, Nat.add_0_r.
  - simpl. destruct (merge_entry st entry) as [st'|] eqn:Hm.
    + destruct (merge_entry_grows _ _ _ Hm) as (new1 & He1 & Ha1).
      destruct (IH st') as (new2 & He2 & Ha2).
      exists (new1 ++ new2).
      rewrite He2, Ha2, He1, Ha1, length_app, <-app_assoc. split; [done|lia].
    + exists []. simpl. by rewrite app_nil_r, Nat.add_0_r.
Qed.

(** A candidate list that went through without an exception goes through
    again, adding nothing, from any state that knows the keys reached. *)
Lemma merge_loop_seen st C st' st2 :
  merge_loop st C = (st', None) →
  existing_names st' ⊆ existing_names st2 →
  merge_loop st2 C = (st2, None).
Proof.
  revert st. induction C as [|entry C IH]; intros st Hl Hsub; [done|].
  simpl in *. destruct (merge_entry st entry) as [st1|] eqn:Hm; [|done].
  rewrite (merge_entry_seen st entry st1 st2 Hm).
  - by eapply IH.
  - etrans; [|exact Hsub].
    pose proof (merge_loop_names st1 C) as Hn. by rewrite Hl in Hn.
Qed.

Lemma merge_loop_bump k st C :
  merge_loop (bump k st) C
  = (bump k (merge_loop st C).1, (merge_loop st C).2).
Proof.
  revert st. induction C as [|entry C IH]; intros st; [done|].
  simpl. rewrite merge_entry_bump.
  destruct (merge_entry st entry); [apply IH | done].
Qed.

Lemma coherent_eq st :
  coherent st → st = bump (added st) (merge_init (existing st)).
Proof.
  unfold coherent, bump, merge_init. destruct st as [E N a]. simpl.
  intros ->. f_equal. lia.
Qed.

(** Every record the loop appends was built from one of the candidates,
    under that candidate's stripped name. *)
Lemma merge_loop_new st C new :
  existing (merge_loop st C).1 = existing st ++ new →
  Forall (λ d, ∃ entry name,
              entry ∈ C ∧ entry_name entry = Py.Ok name
              ∧ Py.startswith "Dr." name = true
              ∧ build_record name entry = Py.Ok d) new.
Proof.
  revert st new. induction C as [|entry C IH]; intros st new.
  - simpl. intros H. symmetry in H.
    rewrite <-(app_nil_r (existing st)) in H at 2.
    apply app_inv_head in H as ->. constructor.
  - simpl. destruct (merge_entry st entry) as [st'|] eqn:Hm.
    2:{ simpl. intros H. symmetry in H.
        rewrite <-(app_nil_r (existing st)) in H at 2.
        apply app_inv_head in H as ->. constructor. }
    destruct (merge_loop_grows st' C) as (new2 & He2 & _).
    pose proof (IH st' new2 He2) as Hall.
    assert (Forall (λ d, ∃ entry0 name,
              entry0 ∈ entry :: C ∧ entry_name entry0 = Py.Ok name
              ∧ Py.startswith "Dr." name = true
              ∧ build_record name entry0 = Py.Ok d) new2) as Hall'.
    { eapply Forall_impl; [exact Hall|].
      intros d (e & n & ? & ?). exists e, n. split; [by right | done]. }
    intros H. rewrite He2 in H.
    apply merge_entry_inv in Hm
      as [[-> _]|(name & d & Hn & Hdr & _ & Hb & ->)].
    + by apply app_inv_head in H as <-.
    + simpl in H. rewrite <-app_assoc in H. apply app_inv_head in H as <-.
      constructor; [|exact Hall'].
      exists entry, name. split; [by left | done].
Qed.

End merge_facts.

(** *** What the specification says of the merge *)

Lemma merge_surgeons_loop E C :
  merge_surgeons E C
  = ((existing (merge_loop (merge_init E) C).1),
     match (merge_loop (merge_init E) C).2 with
     | None => Py.Ok (added (merge_loop (merge_init E) C).1)
     | Some e => Py.Raise e
     end).
Proof.
  unfold merge_surgeons, merge_init. by destruct (merge_loop _ C).
Qed.

Lemma merge_init_coherent E : coherent (merge_init E).
Proof. reflexivity. Qed.

(** One call on a concatenation is the call on the first part followed by
    the call on the second, exceptions included. *)
Lemma merge_surgeons_app E C1 C2 :
  merge_surgeons E (C1 ++ C2)
  = match merge_surgeons E C1 with
    | (E1, Py.Ok a1) =>
        match merge_surgeons E1 C2 with
        | (E2, Py.Ok a2) => (E2, Py.Ok (a1 + a2))
        | (E2, Py.Raise e) => (E2, Py.Raise e)
        end
    | (E1, Py.Raise e) => (E1, Py.Raise e)
    end.
Proof.
  rewrite !merge_surgeons_loop, merge_loop_app.
  pose proof (merge_loop_coherent (merge_init E) C1 (merge_init_coherent E))
    as Hco.
  destruct (merge_loop (merge_init E) C1) as [st1 [e|]]; [done|].
  cbn [fst snd] in *.
  replace (merge_loop st1 C2)
    with (merge_loop (bump (added st1) (merge_init (existing st1))) C2)
    by (by rewrite <-coherent_eq).
  rewrite merge_loop_bump. cbn [fst snd bump existing added].
  by destruct (merge_loop (merge_init (existing st1)) C2) as [st2 [e|]].
Qed.

(** With names that are strings (or missing), as the scrapers give them,
    [merge_surgeons] returns. *)
Lemma merge_surgeons_returns E C :
  Forall (λ entry, Entry.name entry ≠ Some None) C →
  ∃ a, (merge_surgeons E C).2 = Py.Ok a.
Proof.
  rewrite merge_surgeons_loop. cbn [snd]. generalize (merge_init E).
  induction C as [|entry C IH]; intros st HC; [by eexists|].
  apply Forall_cons in HC as [Hentry HC]. simpl.
  destruct (merge_entry st entry) as [st'|e] eqn:Hm; [by apply IH|].
  by apply merge_entry_raises in Hm as [? _].
Qed.

(** C1.  When [merge_surgeons E C] returns [(E', a)], merging the same
    candidates into [E'] returns an added count of 0 and leaves [E'] as it
    is. *)
Theorem merge_idempotent E C E' a :
  merge_surgeons E C = (E', Py.Ok a) →
  merge_surgeons E' C = (E', Py.Ok 0).
Proof.
  rewrite merge_surgeons_loop.
  pose proof (merge_loop_coherent (merge_init E) C (merge_init_coherent E))
    as Hco.
  destruct (merge_loop (merge_init E) C) as [st [e|]] eqn:Hl; [done|].
  simpl in *. intros [= <- <-]. rewrite merge_surgeons_loop.
  rewrite (merge_loop_seen _ _ _ (merge_init (existing st)) Hl); [done|].
  simpl. by rewrite Hco.
Qed.

Lemma merge_idempotent_witness :
  let C := [named "Dr. Jane Smith"; named "Dr. Jane Smith"; named "Dr. John Doe"] in
  (merge_surgeons [] C).2 = Py.Ok 2
  ∧ merge_surgeons (merge_surgeons [] C).1 C = ((merge_surgeons [] C).1, Py.Ok 0).
Proof.
  split; [reflexivity|].
  apply (merge_idempotent [] _ _ 2). reflexivity.
Defined.

Lemma merge_surgeons_appends E C :
  ∃ new, (merge_surgeons E C).1 = E ++ new.
Proof.
  rewrite merge_surgeons_loop. simpl.
  destruct (merge_loop_grows (merge_init E) C) as (new & He & _). eauto.
Qed.

(** C3.  Whatever the candidates hold, [merge_surgeons] leaves the list as
    the records that were in it followed by the records it appended: every
    record of [E] is still there, at its place and equal in every field. *)
Theorem merge_non_destructive E C :
  (∃ new, (merge_surgeons E C).1 = E ++ new)
  ∧ ∀ i d, E !! i = Some d → (merge_surgeons E C).1 !! i = Some d.
Proof.
  destruct (merge_surgeons_appends E C) as [new Hnew].
  split; [by exists new|].
  intros i d Hi. rewrite Hnew. by apply lookup_app_l_Some.
Qed.

Lemma merge_non_destructive_witness :
  ∃ d,
    (merge_surgeons [] [named "Dr. Jane Smith"]).1 = [d]
    ∧ (merge_surgeons [d] [named "dr. JANE  smith"; named "Dr. Jane Smith";
                           named "Dr. Amy Lee"]).1 !! 0 = Some d.
Proof.
  eexists. split; [reflexivity|].
  apply (proj2 (merge_non_destructive _ _) 0). reflexivity.
Defined.

(** The count returned is the number of records appended. *)
Lemma merge_count E C E' a :
  merge_surgeons E C = (E', Py.Ok a) → length E' = length E + a.
Proof.
  rewrite merge_surgeons_loop.
  destruct (merge_loop_grows (merge_init E) C) as (new & He & Ha).
  destruct (merge_loop (merge_init E) C) as [st [e|]]; [done|].
  simpl in *. intros [= <- <-]. rewrite He, Ha, length_app. done.
Qed.

(** C5.  Merging per source, first [C1] and then [C2] into what the first
    call returned, gives the list and the sum of the counts that one call
    on [C1 ++ C2] gives, and conversely. *)
Theorem merge_successive E C1 C2 :
  (∀ E1 a1 E2 a2,
     merge_surgeons E C1 = (E1, Py.Ok a1) →
     merge_surgeons E1 C2 = (E2, Py.Ok a2) →
     merge_surgeons E (C1 ++ C2) = (E2, Py.Ok (a1 + a2)))
  ∧ (∀ E2 a,
       merge_surgeons E (C1 ++ C2) = (E2, Py.Ok a) →
       ∃ E1 a1 a2,
         merge_surgeons E C1 = (E1, Py.Ok a1)
         ∧ merge_surgeons E1 C2 = (E2, Py.Ok a2)
         ∧ a = a1 + a2).
Proof.
  split.
  - intros E1 a1 E2 a2 H1 H2. by rewrite merge_surgeons_app, H1, H2.
  - intros E2 a. rewrite merge_surgeons_app.
    destruct (merge_surgeons E C1) as [E1 [a1|e]]; [|done].
    destruct (merge_surgeons E1 C2) as [E2' [a2|e]] eqn:H2; [|done].
    intros [= <- <-]. by exists E1, a1, a2.
Qed.

Lemma merge_successive_witness :
  let C1 := [named "Dr. Jane Smith"; named "Dr. John Doe"] in
  let C2 := [named "Dr. Jane Smith"; named "Dr. Amy Lee"] in
  (merge_surgeons [] C1).2 = Py.Ok 2
  ∧ (merge_surgeons (merge_surgeons [] C1).1 C2).2 = Py.Ok 1
  ∧ merge_surgeons [] (C1 ++ C2)
    = ((merge_surgeons (merge_surgeons [] C1).1 C2).1, Py.Ok (2 + 1)).
Proof.
  intros C1 C2. split; [reflexivity|]. split; [reflexivity|].
  apply (proj1 (merge_successive [] C1 C2)
           (merge_surgeons [] C1).1 2
           (merge_surgeons (merge_surgeons [] C1).1 C2).1 1);
    reflexivity.
Defined.

(** *** Dedup keys *)

(** C2.  The three spellings do not share a key: after the title of
    ["Dr.  Jane   Smith."] is removed, the second of its two spaces is left in
    front, so the key is [" jane smith"], and [merge_surgeons] adds a record
    for it next to the one for ["Dr. Jane Smith"], in either order. *)
Theorem doubled_space_key :
  normalize_name "Dr. Jane Smith" = "jane smith"
  ∧ normalize_name "dr jane smith" = "jane smith"
  ∧ normalize_name "Dr.  Jane   Smith." = " jane smith"
  ∧ (merge_surgeons [] [named "Dr. Jane Smith"; named "Dr.  Jane   Smith."]).2
    = Py.Ok 2
  ∧ (merge_surgeons [] [named "Dr.  Jane   Smith."; named "Dr. Jane Smith"]).2
    = Py.Ok 2
  ∧ Surgeon.name <$>
      (merge_surgeons [] [named "Dr. Jane Smith"; named "Dr.  Jane   Smith."]).1
    = ["Dr. Jane Smith"; "Dr.  Jane   Smith."].
Proof. repeat split; reflexivity. Qed.

(** The lowercase spelling never reaches the key comparison: the title
    check of [merge_surgeons] wants a capital [Dr.]. *)
Lemma lowercase_title_rejected E :
  merge_surgeons E [named "dr jane smith"] = (E, Py.Ok 0).
Proof. rewrite merge_surgeons_loop. reflexivity. Qed.

(** *** Synthesised records *)

(** C4, as stated, fails: a candidate that carries only a name gets the
    empty string for its city, state and web address, and
    ["Verify directly"] for its organisation, so no sentinel fills all the
    text fields it lacks. *)
Lemma absent_fields_not_all_sentinel :
  (∃ d, merge_surgeons [] [named "Dr. Jane Smith"] = ([d], Py.Ok 1)
        ∧ Surgeon.org d = "Verify directly"
        ∧ Surgeon.city d = "" ∧ Surgeon.state d = "" ∧ Surgeon.web d = "")
  ∧ ¬ ∃ sentinel, absent_get_sentinel sentinel.
Proof.
  split; [eexists; repeat split; reflexivity|].
  intros [sentinel H].
  destruct (H [] (named "Dr. Jane Smith") _ eq_refl) as (Horg & Hcity & _).
  specialize (Horg eq_refl). specialize (Hcity eq_refl).
  rewrite <-Horg in Hcity. discriminate Hcity.
Qed.

(** *** Name parts *)

Lemma title_append rest :
  "Dr. " +:+ rest = String "D" (String "r" (String "." (String " " rest))).
Proof. reflexivity. Qed.

Lemma split_after_title rest :
  Py.split ("Dr. " +:+ rest) = "Dr." :: Py.split rest.
Proof.
  rewrite title_append. unfold Py.split. cbn.
  destruct (Py.split_aux rest) as [w ws]. by destruct w.
Qed.

Lemma replace_title rest :
  occurs "Dr. " rest = false → Py.replace "Dr. " "" ("Dr. " +:+ rest) = rest.
Proof.
  intros H. unfold Py.replace.
  rewrite replace_from_occurrence, append_nil_l by done.
  by apply replace_from_absent.
Qed.

(** C10, as stated, fails: the title is removed wherever it occurs, so for
    ["Dr. Dr. Jane Smith"] the first-name field is ["Jane"], not the token
    ["Dr."] that follows the leading title. *)
Lemma repeated_title_first_name :
  ∃ d, merge_surgeons [] [named "Dr. Dr. Jane Smith"] = ([d], Py.Ok 1)
       ∧ Py.split "Dr. Dr. Jane Smith" = ["Dr."; "Dr."; "Jane"; "Smith"]
       ∧ Surgeon.fn d = "Jane"
       ∧ Surgeon.fn d ≠ "Dr.".
Proof. eexists. repeat split; [reflexivity..|discriminate]. Qed.

(** C10, amended.  A candidate whose stripped name starts with ["Dr."]
    passes the title check; when its key is new, one record is appended.
    Its name parts are empty when no space follows the title; otherwise they
    are the first and the last token of the name with every ["Dr. "]
    removed, which, when the title occurs only in front, are the first token
    after it and the last token of the name. *)
Theorem name_parts E entry raw :
  Entry.name entry = Some (Some raw) →
  Py.startswith "Dr." (Py.strip raw) = true →
  normalize_name (Py.strip raw) ∉ names_of E →
  ∃ d, merge_surgeons E [entry] = (E ++ [d], Py.Ok 1)
       ∧ Surgeon.name d = Py.strip raw
       ∧ (Py.startswith "Dr. " (Py.strip raw) = false →
          Surgeon.fn d = "" ∧ Surgeon.ln d = "")
       ∧ (Py.startswith "Dr. " (Py.strip raw) = true →
          head (Py.split (Py.replace "Dr. " "" (Py.strip raw)))
            = Some (Surgeon.fn d)
          ∧ last (Py.split (Py.replace "Dr. " "" (Py.strip raw)))
            = Some (Surgeon.ln d))
       ∧ (∀ rest,
            Py.strip raw = "Dr. " +:+ rest → occurs "Dr. " rest = false →
            head (Py.split rest) = Some (Surgeon.fn d)
            ∧ last (Py.split (Py.strip raw)) = Some (Surgeon.ln d)).
Proof.
  intros Hraw Hdr Hnew. set (name := Py.strip raw) in *.
  assert (entry_name entry = Py.Ok name) as Hn
    by (unfold entry_name; by rewrite Hraw).
  assert (name ≠ "") as Hne by (intros Heq; by rewrite Heq in Hdr).
  destruct (last_char name) as [c|] eqn:Hl; [|by apply last_char_None in Hl].
  destruct (build_record_returns name entry c Hl) as [d Hb];
    [by eapply entry_name_stripped|].
  exists d. split.
  { rewrite merge_surgeons_loop. cbn [merge_loop].
    assert (merge_entry (merge_init E) entry
            = Py.Ok {| existing := E ++ [d];
                       existing_names := {[normalize_name name]} ∪ names_of E;
                       added := 1 |}) as ->.
    { unfold merge_entry, mbind, result_bind. rewrite Hn.
      rewrite bool_decide_eq_false_2 by done. rewrite Hdr. cbn [negb orb].
      rewrite bool_decide_eq_false_2 by done. by rewrite Hb. }
    done. }
  apply build_record_inv in Hb as (Hname & _ & _ & Hparts).
  split; [done|].
  assert (Py.startswith "Dr. " name = true →
          head (Py.split (Py.replace "Dr. " "" name)) = Some (Surgeon.fn d)
          ∧ last (Py.split (Py.replace "Dr. " "" name)) = Some (Surgeon.ln d))
    as Htokens.
  { intros Hsp. rewrite Hsp in Hparts. destruct Hparts as [Hf Hln].
    unfold first_token, last_token in *.
    destruct (Py.split (Py.replace "Dr. " "" name)) as [|w ws];
      [discriminate|].
    injection Hf as <-. split; [done|].
    destruct (last (w :: ws)) as [l|]; [|discriminate].
    by injection Hln as <-. }
  split; [|split; [exact Htokens|]].
  - intros Hsp. by rewrite Hsp in Hparts.
  - intros rest Hrest Hocc.
    assert (Py.startswith "Dr. " name = true) as Hsp
      by (rewrite Hrest; apply prefix_append).
    destruct (Htokens Hsp) as [Hf Hln]. rewrite Hrest in Hf, Hln |- *.
    rewrite replace_title in Hf, Hln by done.
    split; [done|]. rewrite split_after_title, last_cons. by rewrite Hln.
Qed.

Lemma name_parts_witness :
  ∃ d, merge_surgeons [] [named "Dr.Jane Smith"] = ([] ++ [d], Py.Ok 1)
       ∧ Surgeon.fn d = "" ∧ Surgeon.ln d = "".
Proof.
  destruct (name_parts [] (named "Dr.Jane Smith") "Dr.Jane Smith"
              eq_refl eq_refl) as (d & Hm & _ & Hparts & _).
  { apply not_elem_of_empty. }
  exists d. split; [exact Hm | exact (Hparts eq_refl)].
Defined.

(** ** The page loop *)

Lemma page_loop_step get page surgeons requested :
  page_loop get page surgeons requested
  = match page_body get page surgeons with
    | (surgeons', Break) => (surgeons', requested ++ [page])
    | (surgeons', NextPage) =>
        if decide (40 < page + 1) then (surgeons', requested ++ [page])
        else page_loop get (page + 1) surgeons' (requested ++ [page])
    end.
Proof.
  simp page_loop. destruct (page_body get page surgeons) as [s' []]; simpl;
    [done|]. by destruct (decide (40 < page + 1)).
Qed.

(** The loop requests consecutive pages, at least one, and none above 40
    unless it was started there. *)
Lemma page_loop_requests get page surgeons requested :
  ∃ k, 1 ≤ k ∧ (page + k ≤ 41 ∨ k = 1)
       ∧ (page_loop get page surgeons requested).2 = requested ++ seq page k.
Proof.
  funelim (page_loop get page surgeons requested).
  - exists 1. by auto.
  - exists 1. by auto.
  - match goal with IH : ∃ k, _ |- _ => destruct IH as (k & Hk & Hb & ->) end.
    exists (S k). split; [lia|]. split; [lia|].
    by rewrite <-app_assoc, Nat.add_1_r.
Qed.

Lemma page_body_next get page surgeons :
  (∀ n, ∃ doc, get n = Some doc ∧ cards doc ≠ [] ∧ next_btn doc = true) →
  (page_body get page surgeons).2 = NextPage.
Proof.
  intros Hall. destruct (Hall page) as (doc & Hdoc & Hcards & Hnext).
  unfold page_body. rewrite Hdoc, Hnext. by destruct (cards doc).
Qed.

(** When every page shows cards and a next-page link, the loop asks for the
    pages up to 40 and leaves. *)
Lemma page_loop_all_next get :
  (∀ n, ∃ doc, get n = Some doc ∧ cards doc ≠ [] ∧ next_btn doc = true) →
  ∀ m page surgeons requested,
    40 - page = m → page ≤ 40 →
    (page_loop get page surgeons requested).2
    = requested ++ seq page (41 - page).
Proof.
  intros Hall. induction m as [|m IH]; intros page surgeons requested Hm Hle;
    rewrite page_loop_step;
    pose proof (page_body_next get page surgeons Hall) as Hnext;
    destruct (page_body get page surgeons) as [s' f]; simpl in Hnext;
    subst f.
  - rewrite decide_True by lia. simpl.
    by replace (41 - page) with 1 by lia.
  - rewrite decide_False by lia. rewrite IH by lia.
    replace (41 - page) with (S (41 - (page + 1))) by lia.
    by rewrite <-app_assoc, Nat.add_1_r.
Qed.

(** C9.  Whatever the pages hold, one call of [scrape_icarebetter] requests
    the pages 1 to [k] for some [k] between 1 and 40, and then returns; when
    every page reports a next page it requests exactly the pages 1 to 40. *)
Theorem icarebetter_page_cap get :
  (∃ k, 1 ≤ k ≤ 40 ∧ icarebetter_requests get = seq 1 k)
  ∧ ((∀ n, ∃ doc, get n = Some doc ∧ cards doc ≠ [] ∧ next_btn doc = true) →
     icarebetter_requests get = seq 1 40).
Proof.
  unfold icarebetter_requests. split.
  - destruct (page_loop_requests get 1 [] []) as (k & Hk & Hb & ->).
    exists k. split; [lia | done].
  - intros Hall. by rewrite (page_loop_all_next get Hall 39) by lia.
Qed.

Lemma icarebetter_page_cap_witness :
  let get := λ _ : nat, Some (Soup [Card (Some "Dr. Jane Smith") None None] true) in
  length (icarebetter_requests get) = 40
  ∧ icarebetter_requests get = seq 1 40.
Proof.
  intros get. split; [reflexivity|].
  apply (proj2 (icarebetter_page_cap get)).
  intros n. eexists. split; [reflexivity|]. split; [discriminate | reflexivity].
Defined.

(** ** The run history *)

Section history_facts.
Context {A : Type}.
Implicit Types (l m : list A) (n : nat).

Lemma last_n_length n l : length (last_n n l) = n `min` length l.
Proof. unfold last_n. rewrite length_drop. lia. Qed.

Lemma last_n_suffix n l : last_n n l `suffix_of` l.
Proof. exists (take (length l - n) l). unfold last_n. by rewrite take_drop. Qed.

Lemma last_n_snoc n l x : 0 < n → last (last_n n (l ++ [x])) = Some x.
Proof.
  intros Hn. unfold last_n. rewrite length_app. simpl.
  rewrite drop_app_le by lia. apply last_snoc.
Qed.

(** Trimming before appending more is the same as trimming once at the
    end. *)
Lemma last_n_app_last_n n l m :
  last_n n (last_n n l ++ m) = last_n n (l ++ m).
Proof.
  unfold last_n. rewrite !length_app, length_drop.
  destruct (decide (length m ≤ n)) as [Hm|Hm].
  - rewrite !drop_app_le by (rewrite ?length_drop; lia).
    rewrite drop_drop. do 2 f_equal. lia.
  - rewrite !drop_app_ge by (rewrite ?length_drop; lia).
    rewrite length_drop. f_equal. lia.
Qed.

End history_facts.

Lemma append_history_runs l es :
  foldl append_history (last_n 24 l) es = last_n 24 (l ++ es).
Proof.
  revert l. induction es as [|x es IH]; intros l; [by rewrite app_nil_r|].
  simpl. unfold append_history at 2. rewrite IH.
  by rewrite <-app_assoc, last_n_app_last_n.
Qed.

(** C8.  After [history.append(log_entry); history = history[-24:]] the
    history holds at most 24 entries: it is the end of the old history with
    the new entry last, 24 long once that many exist, and over any further
    runs it stays the last 24 of all entries in the order they were made. *)
Theorem history_retention history e :
  length (append_history history e) = 24 `min` (length history + 1)
  ∧ length (append_history history e) ≤ 24
  ∧ append_history history e `suffix_of` (history ++ [e])
  ∧ last (append_history history e) = Some e
  ∧ ∀ es, foldl append_history (append_history history e) es
          = last_n 24 (history ++ e :: es).
Proof.
  unfold append_history at 1 2 3 4.
  rewrite last_n_length, length_app. cbn [length].
  split; [done|]. split; [lia|]. split; [apply last_n_suffix|].
  split; [apply last_n_snoc; lia|].
  intros es. unfold append_history at 2.
  by rewrite append_history_runs, <-app_assoc.
Qed.

(** ** The orchestrator *)

Section run_facts.
Implicit Types (st : run_state) (src : string * Py.result (list candidate)).
Implicit Types (scrapers : list (string * Py.result (list candidate))).

Lemma run_sources_app st scrapers1 scrapers2 :
  run_sources st (scrapers1 ++ scrapers2)
  = run_sources (run_sources st scrapers1) scrapers2.
Proof. apply foldl_app. Qed.

Lemma run_source_prefix st src :
  run_existing st `prefix_of` run_existing (run_source st src).
Proof.
  destruct src as [source_name [new_entries|[msg]]]; simpl; [|done].
  destruct (merge_surgeons_appends (run_existing st) new_entries)
    as [new Hnew].
  destruct (merge_surgeons (run_existing st) new_entries)
    as [existing' [a|[msg]]]; simpl in *; subst existing';
    by apply prefix_app_r.
Qed.

Lemma run_sources_prefix st scrapers :
  run_existing st `prefix_of` run_existing (run_sources st scrapers).
Proof.
  revert st. induction scrapers as [|src scrapers IH]; intros st; [done|].
  simpl. etrans; [apply (run_source_prefix st src) | apply IH].
Qed.

(** A failing source gets an error entry and adds nothing to the total. *)
Lemma run_source_fails st src msg :
  source_fails st src msg →
  results_by_source (run_source st src) !! src.1 = Some (Error msg)
  ∧ total_added (run_source st src) = total_added st.
Proof.
  destruct src as [source_name scraped].
  intros [Hs|(new_entries & existing' & Hs & Hm)]; simpl in *; subst scraped.
  - simpl. by rewrite lookup_insert_eq.
  - simpl. rewrite Hm. simpl. by rewrite lookup_insert_eq.
Qed.

Lemma run_source_results_other st src name :
  name ≠ src.1 →
  results_by_source (run_source st src) !! name
  = results_by_source st !! name.
Proof.
  intros Hne. destruct src as [source_name [new_entries|[msg]]]; simpl in *.
  - destruct (merge_surgeons (run_existing st) new_entries)
      as [existing' [a|[msg]]]; simpl; by rewrite lookup_insert_ne.
  - by rewrite lookup_insert_ne.
Qed.

(** Only a source of the same name overwrites an entry. *)
Lemma run_sources_results_other st scrapers name :
  name ∉ scrapers.*1 →
  results_by_source (run_sources st scrapers) !! name
  = results_by_source st !! name.
Proof.
  revert st. induction scrapers as [|src scrapers IH]; intros st Hn; [done|].
  rewrite fmap_cons, not_elem_of_cons in Hn. destruct Hn as [Hne Hn].
  simpl. rewrite IH by done. by apply run_source_results_other.
Qed.

(** The records and the total do not depend on the outcome entries. *)
Lemma run_source_records st st' src :
  run_existing st = run_existing st' → total_added st = total_added st' →
  run_existing (run_source st src) = run_existing (run_source st' src)
  ∧ total_added (run_source st src) = total_added (run_source st' src).
Proof.
  intros He Ht. destruct src as [source_name [new_entries|[msg]]]; simpl.
  - rewrite <-He, <-Ht.
    by destruct (merge_surgeons (run_existing st) new_entries)
      as [existing' [a|[msg]]].
  - done.
Qed.

Lemma run_sources_records st st' scrapers :
  run_existing st = run_existing st' → total_added st = total_added st' →
  run_existing (run_sources st scrapers)
  = run_existing (run_sources st' scrapers)
  ∧ total_added (run_sources st scrapers)
    = total_added (run_sources st' scrapers).
Proof.
  revert st st'. induction scrapers as [|src scrapers IH];
    intros st st' He Ht; [done|].
  simpl. destruct (run_source_records st st' src He Ht). by apply IH.
Qed.

Lemma insert_sorted_perm d l : insert_sorted d l ≡ₚ d :: l.
Proof.
  induction l as [|d' l IH]; [done|]. simpl.
  destruct (key_le (sort_key d) (sort_key d')); [done|].
  by rewrite IH, Permutation_swap.
Qed.

(** Sorting reorders the records and nothing else. *)
Lemma sort_surgeons_perm l : sort_surgeons l ≡ₚ l.
Proof.
  induction l as [|d l IH]; [done|].
  unfold sort_surgeons in *. simpl. by rewrite insert_sorted_perm, IH.
Qed.

End run_facts.

(** What [main] writes back: the sorted records of the last state, and the
    history with the summary of this run appended. *)
Lemma main_saves loaded history scrapers now :
  let st := run_sources {| run_existing := loaded; total_added := 0;
                           results_by_source := ∅ |} scrapers in
  (main loaded history scrapers now).1 = sort_surgeons (run_existing st)
  ∧ (main loaded history scrapers now).1 ≡ₚ run_existing st
  ∧ last (main loaded history scrapers now).2
    = Some {| timestamp := now;
              total_surgeons := length (run_existing st);
              added_this_run := total_added st;
              sources := results_by_source st |}.
Proof.
  intros st. unfold main. fold st. cbn [fst snd].
  split; [done|]. split; [apply sort_surgeons_perm|].
  unfold append_history. rewrite last_n_snoc by lia.
  by rewrite (Permutation_length (sort_surgeons_perm (run_existing st))).
Qed.

(** ** The end-to-end scenarios of the specification *)

(** A duplicate within one source is added once. *)
Example scenario_duplicate_in_source :
  let C := [named "Dr. Jane Smith"; named "Dr. Jane Smith"; named "Dr. John Doe"] in
  length (merge_surgeons [] C).1 = 2 ∧ (merge_surgeons [] C).2 = Py.Ok 2.
Proof. split; reflexivity. Qed.

(** A surgeon already in the list is not added again by another source. *)
Example scenario_known_identity :
  let E := (merge_surgeons [] [named "Dr. Jane Smith"]).1 in
  let C := [named "Dr. Jane Smith"; named "Dr. Amy Lee"] in
  Surgeon.name <$> (merge_surgeons E C).1 = ["Dr. Jane Smith"; "Dr. Amy Lee"]
  ∧ (merge_surgeons E C).2 = Py.Ok 1.
Proof. split; reflexivity. Qed.

(** A candidate whose name is [None] makes [merge_surgeons] raise after the
    candidates before it were appended. *)
Example scenario_merge_raises :
  let bad := {| Entry.name := Some None;
                Entry.org := None; Entry.city := None; Entry.state := None;
                Entry.phone := None; Entry.web := None;
                Entry.profile_url := None; Entry.specs := None;
                Entry.accepting := None; Entry.notes := None;
                Entry.source := None; Entry.source_location := None |} in
  let r := merge_surgeons [] [named "Dr. Jane Smith"; bad; named "Dr. Amy Lee"] in
  Surgeon.name <$> r.1 = ["Dr. Jane Smith"] ∧ r.2 = Py.Raise Py.AttributeError.
Proof. split; reflexivity. Qed.

(** * Further properties of the code *)

(** ** Keys and identifiers, for every input *)

Section key_facts.
Implicit Types (s t old : string) (c d r : ascii) (p q : ascii → bool).

Lemma is_space_lower_char c : Py.is_space (Py.lower_char c) = Py.is_space c.
Proof. by destruct c as [[] [] [] [] [] [] [] []]. Qed.

Lemma lower_char_idem c : Py.lower_char (Py.lower_char c) = Py.lower_char c.
Proof. by destruct c as [[] [] [] [] [] [] [] []]. Qed.

Lemma lower_char_not_upper c : Py.is_upper (Py.lower_char c) = false.
Proof. by destruct c as [[] [] [] [] [] [] [] []]. Qed.

Lemma lower_idem s : Py.lower (Py.lower s) = Py.lower s.
Proof.
  induction s as [|c s IH]; [done|]. simpl. by rewrite lower_char_idem, IH.
Qed.

Lemma lower_lstrip s :
  Py.lower (Py.lstrip_with Py.is_space s)
  = Py.lstrip_with Py.is_space (Py.lower s).
Proof.
  induction s as [|c s IH]; [done|]. cbn [Py.lower Py.lstrip_with].
  rewrite is_space_lower_char. by destruct (Py.is_space c).
Qed.

Lemma lower_rstrip s :
  Py.lower (Py.rstrip_with Py.is_space s)
  = Py.rstrip_with Py.is_space (Py.lower s).
Proof.
  induction s as [|c s IH]; [done|]. cbn [Py.lower Py.rstrip_with].
  rewrite <-IH, is_space_lower_char.
  destruct (Py.rstrip_with Py.is_space s); [by destruct (Py.is_space c)|done].
Qed.

Lemma lower_strip s : Py.lower (Py.strip s) = Py.strip (Py.lower s).
Proof. unfold Py.strip, Py.strip_with. by rewrite lower_rstrip, lower_lstrip. Qed.

Lemma lstrip_keeps p s c :
  first_char s = Some c → p c = false → Py.lstrip_with p s = s.
Proof. destruct s as [|c0 s]; [done|]. intros [= ->] Hp. simpl. by rewrite Hp. Qed.

Lemma rstrip_idem p s :
  Py.rstrip_with p (Py.rstrip_with p s) = Py.rstrip_with p s.
Proof.
  destruct (last_char (Py.rstrip_with p s)) as [c|] eqn:Hl.
  - apply (rstrip_keeps p _ c Hl). by apply last_char_rstrip in Hl.
  - by rewrite (last_char_None _ Hl).
Qed.

Lemma strip_idem p s :
  Py.strip_with p (Py.strip_with p s) = Py.strip_with p s.
Proof.
  unfold Py.strip_with.
  destruct (first_char (Py.rstrip_with p (Py.lstrip_with p s))) as [c|] eqn:Hf.
  - rewrite (lstrip_keeps p _ c Hf); [apply rstrip_idem|].
    apply first_char_rstrip in Hf. by apply first_char_lstrip in Hf.
  - destruct (Py.rstrip_with p (Py.lstrip_with p s)); [done|discriminate].
Qed.

(** *** Characters that survive *)

Lemma all_chars_and p q s :
  all_chars (λ c, p c && q c) s = all_chars p s && all_chars q s.
Proof.
  induction s as [|c s IH]; [done|]. simpl. rewrite IH.
  destruct (p c), (q c), (all_chars p s), (all_chars q s); done.
Qed.

Lemma all_chars_lower s :
  all_chars (λ c, negb (Py.is_upper c)) (Py.lower s) = true.
Proof.
  induction s as [|c s IH]; [done|]. simpl.
  by rewrite lower_char_not_upper, IH.
Qed.

(** Removing occurrences only takes characters away. *)
Lemma all_chars_remove_from q old s :
  all_chars q s = true →
  ∀ skip, all_chars q (Py.replace_from old "" skip s) = true.
Proof.
  induction s as [|c s IH]; [done|]. intros Hs skip.
  cbn [all_chars] in Hs. apply andb_prop in Hs as [Hc Hs].
  cbn [Py.replace_from]. destruct skip as [|k]; [|by apply IH].
  destruct (String.prefix old (String c s)).
  - rewrite append_nil_l. by apply IH.
  - cbn [all_chars]. by rewrite Hc, IH.
Qed.

Lemma all_chars_remove q o old s :
  all_chars q s = true → all_chars q (Py.replace (String o old) "" s) = true.
Proof. intros H. unfold Py.replace. by apply all_chars_remove_from. Qed.

Lemma prefix_single d c s :
  String.prefix (String d "") (String c s) = bool_decide (d = c).
Proof.
  simpl. destruct (ascii_dec d c) as [->|Hne].
  - rewrite bool_decide_eq_true_2 by done. by destruct s.
  - by rewrite bool_decide_eq_false_2.
Qed.

(** Removing a character leaves none of it. *)
Lemma all_chars_remove_char d s :
  all_chars (λ c, negb (bool_decide (c = d))) (Py.replace (String d "") "" s)
  = true.
Proof.
  unfold Py.replace. induction s as [|c s IH]; [done|].
  cbn [Py.replace_from]. rewrite prefix_single. case_bool_decide as Hd.
  - rewrite append_nil_l. exact IH.
  - simpl. rewrite IH. rewrite bool_decide_eq_false_2; [done|congruence].
Qed.

Lemma all_chars_sub_runs_keep q p r b s :
  all_chars q s = true → q r = true →
  all_chars q (Py.sub_runs p r b s) = true.
Proof.
  intros Hs Hr. revert b. induction s as [|c s IH]; intros b; [done|].
  simpl in Hs. apply andb_prop in Hs as [Hc Hs]. specialize (IH Hs).
  rewrite sub_runs_cons. destruct (p c); [destruct b|]; simpl;
    by rewrite ?Hr, ?Hc, IH.
Qed.

(** *** Runs are collapsed *)

Lemma no_repeat_cons d c s :
  no_repeat d (String c s)
  = negb (bool_decide (c = d) && bool_decide (first_char s = Some d))
    && no_repeat d s.
Proof. reflexivity. Qed.

Lemma no_repeat_tail d c s :
  no_repeat d (String c s) = true → no_repeat d s = true.
Proof. rewrite no_repeat_cons. by intros [_ ?]%andb_prop. Qed.

Lemma sub_runs_first p r s c :
  p r = true → first_char (Py.sub_runs p r true s) = Some c → c ≠ r.
Proof.
  intros Hr. induction s as [|c0 s IH]; [done|]. rewrite sub_runs_cons.
  destruct (p c0) eqn:Hc0; [exact IH|]. simpl. intros [= <-] ->. congruence.
Qed.

Lemma sub_runs_no_repeat p r b s :
  p r = true → no_repeat r (Py.sub_runs p r b s) = true.
Proof.
  intros Hr. revert b. induction s as [|c s IH]; intros b; [done|].
  rewrite sub_runs_cons. destruct (p c) eqn:Hc; [destruct b|].
  - apply IH.
  - rewrite no_repeat_cons, IH, andb_true_r.
    apply negb_true_iff, andb_false_iff. right.
    apply bool_decide_eq_false_2. intros Hf.
    by apply (sub_runs_first p r s r Hr) in Hf.
  - rewrite no_repeat_cons, IH, andb_true_r.
    apply negb_true_iff, andb_false_iff. left.
    apply bool_decide_eq_false_2. intros ->. congruence.
Qed.

Lemma no_repeat_lstrip d p s :
  no_repeat d s = true → no_repeat d (Py.lstrip_with p s) = true.
Proof.
  induction s as [|c s IH]; [done|]. intros H. cbn [Py.lstrip_with].
  destruct (p c); [|done]. by apply IH, (no_repeat_tail d c).
Qed.

Lemma first_char_rstrip_some p s c :
  Py.rstrip_with p s ≠ "" → first_char s = Some c →
  first_char (Py.rstrip_with p s) = Some c.
Proof.
  destruct s as [|c0 s]; [done|]. cbn [Py.rstrip_with].
  destruct (Py.rstrip_with p s); [destruct (p c0)|]; done.
Qed.

Lemma no_repeat_rstrip d p s :
  no_repeat d s = true → no_repeat d (Py.rstrip_with p s) = true.
Proof.
  induction s as [|c s IH]; [done|]. intros H.
  pose proof (no_repeat_tail d c s H) as Hs. specialize (IH Hs).
  cbn [Py.rstrip_with]. destruct (Py.rstrip_with p s) as [|c1 r] eqn:Hr.
  - destruct (p c); [done|]. rewrite no_repeat_cons. cbn [first_char].
    rewrite (bool_decide_eq_false_2 (None = Some d)) by done.
    by rewrite andb_false_r.
  - rewrite no_repeat_cons in H |- *. rewrite IH, andb_true_r.
    apply andb_prop in H as [H _]. rewrite <-H. do 2 f_equal.
    destruct (first_char s) as [c2|] eqn:Hf.
    + pose proof (first_char_rstrip_some p s c2) as Hfs.
      rewrite Hr in Hfs. rewrite Hfs by done. done.
    + destruct s; [discriminate Hr | discriminate Hf].
Qed.

(** *** When nothing is left *)

Lemma lstrip_empty p s : Py.lstrip_with p s = "" ↔ all_chars p s = true.
Proof.
  induction s as [|c s IH]; [done|]. simpl. destruct (p c); [exact IH|].
  split; discriminate.
Qed.

Lemma rstrip_empty p s : Py.rstrip_with p s = "" ↔ all_chars p s = true.
Proof.
  induction s as [|c s IH]; [done|]. cbn [Py.rstrip_with all_chars].
  destruct (Py.rstrip_with p s) as [|c1 r].
  - destruct IH as [IH _]. rewrite IH by done. rewrite andb_true_r.
    destruct (p c); split; done.
  - split; [discriminate|]. intros [_ H]%andb_prop.
    by apply IH in H.
Qed.

Lemma all_chars_lstrip_iff p s :
  all_chars p (Py.lstrip_with p s) = all_chars p s.
Proof.
  induction s as [|c s IH]; [done|]. simpl.
  destruct (p c) eqn:Hc; [exact IH|]. simpl. by rewrite Hc.
Qed.

Lemma strip_empty p s : Py.strip_with p s = "" ↔ all_chars p s = true.
Proof.
  unfold Py.strip_with. by rewrite rstrip_empty, all_chars_lstrip_iff.
Qed.

(** A string collapses to hyphens only when none of its characters is
    kept. *)
Lemma sub_runs_all p r b s :
  p r = true →
  all_chars (λ c, bool_decide (c = r)) (Py.sub_runs p r b s) = all_chars p s.
Proof.
  intros Hr. revert b. induction s as [|c s IH]; intros b; [done|].
  rewrite sub_runs_cons. cbn [all_chars]. destruct (p c) eqn:Hc.
  - destruct b; [by rewrite IH|]. cbn [all_chars].
    by rewrite IH, bool_decide_eq_true_2.
  - cbn [all_chars]. rewrite bool_decide_eq_false_2; [done|].
    intros ->. congruence.
Qed.

End key_facts.

(** X1.  Names that differ only in the case of ASCII letters have the same
    key and the same identifier. *)
Theorem key_ignores_case s1 s2 :
  Py.lower s1 = Py.lower s2 →
  normalize_name s1 = normalize_name s2 ∧ make_id s1 = make_id s2.
Proof.
  intros H.
  assert (normalize_name s1 = normalize_name s2) as Hkey
    by (unfold normalize_name; by rewrite !lower_strip, H).
  split; [done|]. unfold make_id. by rewrite Hkey.
Qed.

Lemma key_ignores_case_witness :
  normalize_name "DR. Jane SMITH" = normalize_name "dr. jane Smith"
  ∧ make_id "DR. Jane SMITH" = make_id "dr. jane Smith".
Proof. apply key_ignores_case. reflexivity. Defined.

(** X2.  White space around a name does not change its key or its
    identifier: stripping first, as [merge_surgeons] does, gives the same. *)
Theorem key_ignores_margin s :
  normalize_name (Py.strip s) = normalize_name s
  ∧ make_id (Py.strip s) = make_id s.
Proof.
  assert (normalize_name (Py.strip s) = normalize_name s) as Hkey
    by (unfold normalize_name, Py.strip; by rewrite strip_idem).
  split; [done|]. unfold make_id. by rewrite Hkey.
Qed.

(** X3.  A key holds no capital ASCII letter, no full stop and no comma; its
    only white space is the single space, and never two in a row. *)
Theorem normalize_name_chars s :
  all_chars (λ c, negb (Py.is_upper c)) (normalize_name s) = true
  ∧ all_chars (λ c, negb (bool_decide (c = "."%char))) (normalize_name s) = true
  ∧ all_chars (λ c, negb (bool_decide (c = ","%char))) (normalize_name s) = true
  ∧ all_chars (λ c, negb (Py.is_space c) || bool_decide (c = " "%char))
      (normalize_name s) = true
  ∧ no_repeat " " (normalize_name s) = true.
Proof.
  unfold normalize_name, Py.re_sub_runs. repeat split.
  - apply all_chars_sub_runs_keep; [|done].
    do 4 apply all_chars_remove. apply all_chars_lower.
  - apply all_chars_sub_runs_keep; [|done].
    apply all_chars_remove, all_chars_remove_char.
  - apply all_chars_sub_runs_keep; [|done]. apply all_chars_remove_char.
  - apply all_chars_sub_runs.
  - by apply sub_runs_no_repeat.
Qed.

(** X4.  Whatever the name, its identifier consists of characters of
    [[a-z0-9-]], has no hyphen at either end and never two hyphens in a
    row. *)
Theorem make_id_slug s :
  all_chars slug_char (make_id s) = true
  ∧ first_char (make_id s) ≠ Some "-"%char
  ∧ last_char (make_id s) ≠ Some "-"%char
  ∧ no_repeat "-" (make_id s) = true.
Proof.
  split; [apply make_id_chars|]. split; [apply make_id_first|].
  split; [apply make_id_end|].
  unfold make_id, Py.strip_chars, Py.strip_with, Py.re_sub_runs.
  by apply no_repeat_rstrip, no_repeat_lstrip, sub_runs_no_repeat.
Qed.

(** X5.  The identifier is empty exactly when the key holds no lowercase
    letter and no digit. *)
Theorem make_id_empty s :
  make_id s = "" ↔ all_chars not_slug_char (normalize_name s) = true.
Proof.
  unfold make_id, Py.strip_chars, Py.re_sub_runs.
  rewrite strip_empty. by rewrite (sub_runs_all not_slug_char "-" false).
Qed.

Lemma make_id_empty_witness :
  all_chars not_slug_char (normalize_name "Dr. .") = true
  ∧ make_id "Dr. ." = "".
Proof.
  split; [reflexivity|]. apply (proj2 (make_id_empty "Dr. .")). reflexivity.
Defined.

(** ** The merge engine, further *)

Section merge_more.
Implicit Types (st : merge_state) (entry : candidate) (d : surgeon).
Implicit Types (E new : list surgeon) (C : list candidate).

Lemma elem_of_names_of k E : k ∈ names_of E ↔ k ∈ record_key <$> E.
Proof. unfold names_of. apply elem_of_list_to_set. Qed.

(** Tokens of [split] are not empty and hold no white space. *)
Lemma split_aux_tokens s :
  all_chars (λ c, negb (Py.is_space c)) (Py.split_aux s).1 = true
  ∧ Forall (λ w, w ≠ "" ∧ all_chars (λ c, negb (Py.is_space c)) w = true)
      (Py.split_aux s).2.
Proof.
  induction s as [|c s [IHw IHws]]; [by split|].
  cbn [Py.split_aux]. destruct (Py.split_aux s) as [w ws]. simpl in *.
  destruct (Py.is_space c) eqn:Hc; simpl.
  - split; [done|]. destruct w; [done|]. by constructor.
  - by rewrite Hc, IHw.
Qed.

Lemma split_tokens s :
  Forall (λ w, w ≠ "" ∧ all_chars (λ c, negb (Py.is_space c)) w = true)
    (Py.split s).
Proof.
  destruct (split_aux_tokens s) as [Hw Hws]. unfold Py.split.
  destruct (Py.split_aux s) as [w ws]. simpl in *.
  destruct w; [done|]. by constructor.
Qed.

Lemma first_token_token s w :
  first_token s = Py.Ok w →
  w ≠ "" ∧ all_chars (λ c, negb (Py.is_space c)) w = true.
Proof.
  unfold first_token. pose proof (split_tokens s) as H.
  destruct (Py.split s) as [|w' ws]; [done|]. intros [= <-].
  by apply Forall_cons in H as [? _].
Qed.

Lemma last_token_token s w :
  last_token s = Py.Ok w →
  w ≠ "" ∧ all_chars (λ c, negb (Py.is_space c)) w = true.
Proof.
  unfold last_token. pose proof (split_tokens s) as H.
  destruct (last (Py.split s)) as [w'|] eqn:Hl; [|done]. intros [= <-].
  rewrite Forall_forall in H. apply H. rewrite last_lookup in Hl.
  by eapply list_elem_of_lookup_2.
Qed.

Lemma entry_name_strip entry name :
  entry_name entry = Py.Ok name → Py.strip name = name.
Proof.
  unfold entry_name. destruct (Entry.name entry) as [[s|]|];
    intros [= <-]; try done; apply strip_idem.
Qed.

(** What an iteration does, read off the gate. *)
Lemma merge_entry_gate st entry :
  Entry.name entry ≠ Some None →
  match gate_name entry with
  | None => merge_entry st entry = Py.Ok st
  | Some name =>
      if bool_decide (normalize_name name ∈ existing_names st)
      then merge_entry st entry = Py.Ok st
      else ∃ d, build_record name entry = Py.Ok d
                ∧ merge_entry st entry
                  = Py.Ok {| existing := existing st ++ [d];
                             existing_names :=
                               {[normalize_name name]} ∪ existing_names st;
                             added := S (added st) |}
  end.
Proof.
  intros Hgood. unfold gate_name, merge_entry, mbind, result_bind.
  destruct (entry_name entry) as [name|e] eqn:Hn.
  2:{ unfold entry_name in Hn. by destruct (Entry.name entry) as [[?|]|]. }
  destruct (bool_decide (name = "")) eqn:Hempty; [done|].
  apply bool_decide_eq_false in Hempty.
  destruct (Py.startswith "Dr." name); simpl; [|done].
  destruct (bool_decide (normalize_name name ∈ existing_names st)); [done|].
  destruct (last_char name) as [c|] eqn:Hl; [|by apply last_char_None in Hl].
  destruct (build_record_returns name entry c Hl) as [d Hd];
    [by eapply entry_name_stripped|].
  exists d. by rewrite Hd.
Qed.

Lemma gate_name_inv entry name :
  gate_name entry = Some name ↔
  entry_name entry = Py.Ok name ∧ Py.startswith "Dr." name = true.
Proof.
  unfold gate_name. destruct (entry_name entry) as [n|e]; [|by split; [|intros []]].
  destruct (bool_decide (n = "")) eqn:He.
  - apply bool_decide_eq_true in He as ->. simpl.
    split; [done|]. by intros [[= <-] ?].
  - destruct (Py.startswith "Dr." n) eqn:Hd; simpl.
    + split; [by intros [= <-]|by intros [[= <-] _]].
    + split; [done|]. intros [[= <-] ?]. congruence.
Qed.

(** *** Fresh keys *)

Lemma merge_loop_fresh st C new :
  existing (merge_loop st C).1 = existing st ++ new →
  NoDup (record_key <$> new)
  ∧ ∀ k, k ∈ record_key <$> new → k ∉ existing_names st.
Proof.
  revert st new. induction C as [|entry C IH]; intros st new.
  - simpl. intros H. symmetry in H.
    rewrite <-(app_nil_r (existing st)) in H at 2.
    apply app_inv_head in H as ->. split; [constructor|]. by intros k ?%elem_of_nil.
  - simpl. destruct (merge_entry st entry) as [st'|] eqn:Hm.
    2:{ simpl. intros H. symmetry in H.
        rewrite <-(app_nil_r (existing st)) in H at 2.
        apply app_inv_head in H as ->. split; [constructor|].
        by intros k ?%elem_of_nil. }
    destruct (merge_loop_grows st' C) as (new2 & He2 & _).
    destruct (IH st' new2 He2) as [Hnd Hfresh].
    intros H. rewrite He2 in H.
    apply merge_entry_inv in Hm
      as [[-> _]|(name & d & Hn & Hdr & Hnew & Hb & ->)].
    + by apply app_inv_head in H as <-.
    + simpl in H, Hfresh. rewrite <-app_assoc in H.
      apply app_inv_head in H as <-.
      apply build_record_inv in Hb as (Hname & _).
      assert (record_key d = normalize_name name) as Hk
        by (unfold record_key; by rewrite Hname).
      cbn [app]. rewrite fmap_cons, Hk. split.
      * constructor; [|done]. intros Hin. apply (Hfresh _ Hin).
        apply elem_of_union_l. by apply elem_of_singleton.
      * intros k [->|Hin]%elem_of_cons; [done|].
        intros Hk'. apply (Hfresh _ Hin). by apply elem_of_union_r.
Qed.

(** *** Order of the new records *)

Lemma merge_loop_sublist st C new :
  existing (merge_loop st C).1 = existing st ++ new →
  Surgeon.name <$> new `sublist_of` omap gate_name C.
Proof.
  revert st new. induction C as [|entry C IH]; intros st new.
  - simpl. intros H. symmetry in H.
    rewrite <-(app_nil_r (existing st)) in H at 2.
    by apply app_inv_head in H as ->.
  - simpl. destruct (merge_entry st entry) as [st'|] eqn:Hm.
    2:{ simpl. intros H. symmetry in H.
        rewrite <-(app_nil_r (existing st)) in H at 2.
        apply app_inv_head in H as ->. apply sublist_nil_l. }
    destruct (merge_loop_grows st' C) as (new2 & He2 & _).
    pose proof (IH st' new2 He2) as Hsub.
    intros H. rewrite He2 in H.
    apply merge_entry_inv in Hm
      as [[-> _]|(name & d & Hn & Hdr & _ & Hb & ->)].
    + apply app_inv_head in H as <-.
      destruct (gate_name entry); [by apply sublist_cons | done].
    + simpl in H. rewrite <-app_assoc in H. apply app_inv_head in H as <-.
      rewrite (proj2 (gate_name_inv entry name)) by done.
      apply build_record_inv in Hb as (Hname & _).
      cbn [app]. rewrite fmap_cons, Hname. by apply sublist_skip.
Qed.

Lemma length_omap_le {A B} (f : A → option B) (l : list A) :
  length (omap f l) ≤ length l.
Proof.
  induction l as [|x l IH]; [done|]. csimpl.
  destruct (f x); simpl; lia.
Qed.

(** *** The key set and the count *)

Lemma candidate_keys_cons entry C :
  candidate_keys (entry :: C)
  = match gate_name entry with
    | Some name => {[normalize_name name]} ∪ candidate_keys C
    | None => candidate_keys C
    end.
Proof. unfold candidate_keys. simpl. by destruct (gate_name entry). Qed.

Lemma merge_loop_keys st C :
  Forall (λ entry, Entry.name entry ≠ Some None) C →
  (merge_loop st C).2 = None
  ∧ existing_names (merge_loop st C).1 = existing_names st ∪ candidate_keys C
  ∧ added (merge_loop st C).1
    = added st + size (candidate_keys C ∖ existing_names st).
Proof.
  intros HC. revert st. induction HC as [|entry C Hentry HC IH]; intros st.
  - simpl. split; [done|]. unfold candidate_keys. simpl. split.
    + by rewrite union_empty_r_L.
    + rewrite difference_disjoint_L by set_solver. by rewrite size_empty.
  - pose proof (merge_entry_gate st entry Hentry) as Hm. simpl.
    rewrite candidate_keys_cons.
    destruct (gate_name entry) as [name|]; [|by rewrite Hm].
    case_bool_decide as Hin.
    + rewrite Hm. destruct (IH st) as (Hr & Hn & Ha).
      split; [done|]. split.
      * rewrite Hn. set_solver.
      * rewrite Ha. do 2 f_equal. set_solver.
    + destruct Hm as (d & _ & ->).
      match goal with
      | |- context [merge_loop ?s C] => destruct (IH s) as (Hr & Hn & Ha)
      end.
      simpl in Hn, Ha. split; [done|]. split.
      * rewrite Hn. set_solver.
      * rewrite Ha.
        assert (({[normalize_name name]} ∪ candidate_keys C) ∖ existing_names st
                = {[normalize_name name]}
                  ∪ candidate_keys C
                    ∖ ({[normalize_name name]} ∪ existing_names st)) as ->.
        { apply set_eq. intros x.
          rewrite !elem_of_difference, !elem_of_union, elem_of_difference,
            elem_of_union, !elem_of_singleton.
          destruct (decide (x = normalize_name name)) as [->|]; tauto. }
        assert ({[normalize_name name]}
                ## candidate_keys C
                   ∖ ({[normalize_name name]} ∪ existing_names st)) as Hdisj.
        { apply disjoint_singleton_l. intros [_ Hx]%elem_of_difference.
          apply Hx, elem_of_union_l. by apply elem_of_singleton. }
        pose proof (size_union _ _ Hdisj) as Hsize.
        pose proof (size_singleton (C:=gset string) (normalize_name name)) as Hone.
        lia.
Qed.

Lemma candidate_keys_perm C C' :
  C ≡ₚ C' → candidate_keys C = candidate_keys C'.
Proof. intros H. unfold candidate_keys. by rewrite H. Qed.

Lemma merge_surgeons_keys E C :
  Forall (λ entry, Entry.name entry ≠ Some None) C →
  names_of (merge_surgeons E C).1 = names_of E ∪ candidate_keys C
  ∧ (merge_surgeons E C).2 = Py.Ok (size (candidate_keys C ∖ names_of E)).
Proof.
  intros HC. rewrite merge_surgeons_loop. cbn [fst snd].
  destruct (merge_loop_keys (merge_init E) C HC) as (Hr & Hn & Ha).
  pose proof (merge_loop_coherent (merge_init E) C (merge_init_coherent E))
    as Hco.
  rewrite Hr, Ha, <-Hco, Hn. done.
Qed.

End merge_more.

(** *** Which candidate a record comes from *)

(** Every appended record was built from the first candidate of the list
    that passes the title check with the record's key, under that
    candidate's stripped name; no record before had that key. *)
Lemma merge_loop_origin st C new d :
  existing (merge_loop st C).1 = existing st ++ new → d ∈ new →
  ∃ C1 entry C2,
    C = C1 ++ entry :: C2
    ∧ gate_name entry = Some (Surgeon.name d)
    ∧ build_record (Surgeon.name d) entry = Py.Ok d
    ∧ Forall (λ earlier, ∀ name, gate_name earlier = Some name →
                normalize_name name ≠ record_key d) C1
    ∧ record_key d ∉ existing_names st.
Proof.
  revert st new. induction C as [|entry0 C IH]; intros st new.
  - simpl. intros H. symmetry in H.
    rewrite <-(app_nil_r (existing st)) in H at 2.
    apply app_inv_head in H as ->. by intros ?%elem_of_nil.
  - simpl. destruct (merge_entry st entry0) as [st'|] eqn:Hm.
    2:{ simpl. intros H. symmetry in H.
        rewrite <-(app_nil_r (existing st)) in H at 2.
        apply app_inv_head in H as ->. by intros ?%elem_of_nil. }
    destruct (merge_loop_grows st' C) as (new2 & He2 & _).
    pose proof (IH st' new2 He2) as Hrest.
    intros H Hd. rewrite He2 in H.
    apply merge_entry_inv in Hm
      as [[-> Hseen]|(name0 & d0 & Hn0 & Hdr0 & Hnew0 & Hb0 & ->)].
    + apply app_inv_head in H as <-.
      destruct (Hrest Hd) as (C1 & entry & C2 & -> & Hg & Hb & Hfirst & Hfresh).
      exists (entry0 :: C1), entry, C2. split; [done|]. split; [done|].
      split; [done|]. split; [|done].
      constructor; [|done]. intros name [Hn Hdr]%gate_name_inv Heq.
      apply Hfresh. rewrite <-Heq. by apply Hseen.
    + simpl in H, Hrest. rewrite <-app_assoc in H.
      apply app_inv_head in H as <-.
      pose proof (build_record_inv _ _ _ Hb0) as (Hname0 & _).
      assert (gate_name entry0 = Some name0) as Hg0
        by (by apply gate_name_inv).
      apply elem_of_cons in Hd as [->|Hd].
      * exists [], entry0, C. rewrite Hname0. split; [done|]. split; [done|].
        split; [done|]. split; [constructor|].
        unfold record_key. by rewrite Hname0.
      * destruct (Hrest Hd)
          as (C1 & entry & C2 & -> & Hg & Hb & Hfirst & Hfresh).
        exists (entry0 :: C1), entry, C2. split; [done|]. split; [done|].
        split; [done|]. split.
        -- constructor; [|done]. intros name Hg' Heq.
           rewrite Hg0 in Hg'. injection Hg' as <-.
           apply Hfresh. rewrite <-Heq. apply elem_of_union_l.
           by apply elem_of_singleton.
        -- intros Hin. apply Hfresh. by apply elem_of_union_r.
Qed.

(** C4, amended.  Every record [merge_surgeons] appends was built from one
    candidate: the first in the list that passes the title check with the
    record's key.  The record carries that candidate's stripped name and the
    identifier made from it, and holds, for each other field, the
    candidate's value or else: ["Verify directly"] for the organisation, the
    empty string for city and state, for the web address the candidate's
    [web] unless that is missing, null or empty, then its profile link, then
    the empty string; [["Excision Surgery"]], accepting, ["Monthly Update"]
    as source; the insurance note is ["Verify directly"], the coordinates
    are null, the phone is null unless the candidate has one, [verified] is
    false, and missing notes are generated from the candidate's source. *)
Theorem merge_fills_defaults E C new d :
  (merge_surgeons E C).1 = E ++ new → d ∈ new →
  ∃ C1 entry C2,
    C = C1 ++ entry :: C2
    ∧ gate_name entry = Some (Surgeon.name d)
    ∧ Forall (λ earlier, ∀ name, gate_name earlier = Some name →
                normalize_name name ≠ record_key d) C1
    ∧ Surgeon.id d = make_id (Surgeon.name d)
    ∧ filled_from entry d.
Proof.
  rewrite merge_surgeons_loop. cbn [fst]. intros Hnew Hd.
  destruct (merge_loop_origin (merge_init E) C new d Hnew Hd)
    as (C1 & entry & C2 & HC & Hg & Hb & Hfirst & _).
  exists C1, entry, C2. split; [done|]. split; [done|]. split; [done|].
  by apply build_record_inv in Hb as (_ & ? & ? & _).
Qed.

Lemma merge_fills_defaults_witness :
  let amy := {| Entry.name := Some (Some " Dr. Amy Lee");
                Entry.org := Some "Lee Clinic"; Entry.city := Some "Austin";
                Entry.state := Some "TX"; Entry.phone := Some None;
                Entry.web := Some None;
                Entry.profile_url := Some "https://example.org/amy";
                Entry.specs := None; Entry.accepting := None;
                Entry.notes := None; Entry.source := Some "iCareBetter";
                Entry.source_location := None |} in
  let bob := {| Entry.name := Some (Some "Dr. Bob Roe");
                Entry.org := None; Entry.city := Some "Boston";
                Entry.state := None; Entry.phone := Some (Some "617-555-0100");
                Entry.web := Some (Some "https://example.org/bob");
                Entry.profile_url := None;
                Entry.specs := None; Entry.accepting := Some false;
                Entry.notes := Some "Listed twice."; Entry.source := None;
                Entry.source_location := None |} in
  let amy2 := {| Entry.name := Some (Some "Dr. Amy  Lee.");
                 Entry.org := Some "Other"; Entry.city := Some "Dallas";
                 Entry.state := None; Entry.phone := None; Entry.web := None;
                 Entry.profile_url := None; Entry.specs := None;
                 Entry.accepting := None; Entry.notes := None;
                 Entry.source := None; Entry.source_location := None |} in
  ∃ da db,
    (merge_surgeons [] [amy; bob; amy2]).1 = [] ++ [da; db]
    ∧ (Surgeon.name da, Surgeon.city da, Surgeon.web da)
      = ("Dr. Amy Lee", "Austin", "https://example.org/amy")
    ∧ (Surgeon.name db, Surgeon.city db, Surgeon.org db, Surgeon.notes db)
      = ("Dr. Bob Roe", "Boston", "Verify directly", "Listed twice.")
    ∧ ∃ C1 entry C2,
        [amy; bob; amy2] = C1 ++ entry :: C2
        ∧ gate_name entry = Some (Surgeon.name db)
        ∧ filled_from entry db.
Proof.
  intros amy bob amy2. eexists _, _.
  split; [reflexivity|]. split; [reflexivity|]. split; [reflexivity|].
  match goal with
  | |- ∃ C1 entry C2, _ ∧ _ ∧ filled_from entry ?db =>
      destruct (merge_fills_defaults [] [amy; bob; amy2] _ db eq_refl)
        as (C1 & entry & C2 & HC & Hg & _ & _ & Hf)
  end.
  { apply list_elem_of_further, list_elem_of_here. }
  by exists C1, entry, C2.
Defined.

(** At a candidate whose name is [None] the merge raises, leaving the list
    as the candidates before it made it. *)
Lemma merge_surgeons_raises_at E C1 bad C2 :
  Forall (λ entry, Entry.name entry ≠ Some None) C1 →
  Entry.name bad = Some None →
  merge_surgeons E (C1 ++ bad :: C2)
  = ((merge_surgeons E C1).1, Py.Raise Py.AttributeError).
Proof.
  intros HC1 Hbad. rewrite merge_surgeons_app.
  destruct (merge_surgeons_returns E C1 HC1) as [a1 Ha1].
  destruct (merge_surgeons E C1) as [E1 r1]. simpl in Ha1. subst r1.
  rewrite merge_surgeons_loop. simpl.
  unfold merge_entry, mbind, result_bind, entry_name. by rewrite Hbad.
Qed.

(** The turn of a source whose merge raises: the list keeps what the
    candidates before the failing one added, the total does not move. *)
Lemma run_source_merge_raises rs src C1 bad C2 :
  src.2 = Py.Ok (C1 ++ bad :: C2) →
  Forall (λ entry, Entry.name entry ≠ Some None) C1 →
  Entry.name bad = Some None →
  run_existing (run_source rs src) = (merge_surgeons (run_existing rs) C1).1
  ∧ total_added (run_source rs src) = total_added rs.
Proof.
  destruct src as [source_name scraped]. simpl. intros -> HC1 Hbad.
  by rewrite (merge_surgeons_raises_at _ C1 bad C2 HC1 Hbad).
Qed.

(** X6.  The records [merge_surgeons] appends have keys that differ from
    one another and from the keys of the records already there; so a list
    without two records of the same key stays one. *)
Theorem merge_keeps_keys_distinct E C new :
  (merge_surgeons E C).1 = E ++ new →
  NoDup (record_key <$> new)
  ∧ (∀ d, d ∈ new → record_key d ∉ names_of E)
  ∧ (NoDup (record_key <$> E) → NoDup (record_key <$> (merge_surgeons E C).1)).
Proof.
  intros Hnew. pose proof Hnew as Hloop.
  rewrite merge_surgeons_loop in Hloop. cbn [fst] in Hloop.
  destruct (merge_loop_fresh (merge_init E) C new Hloop) as [Hnd Hfresh].
  split; [done|]. split.
  - intros d Hd. apply Hfresh. by apply list_elem_of_fmap_2.
  - intros HE. rewrite Hnew, fmap_app. apply NoDup_app.
    split; [done|]. split; [|done].
    intros k Hk Hk'. apply (Hfresh k Hk'). by apply elem_of_names_of.
Qed.

Lemma merge_keeps_keys_distinct_witness :
  let E := (merge_surgeons [] [named "Dr. Jane Smith"]).1 in
  let C := [named "Dr. Amy Lee"; named "Dr. jane smith."; named "Dr. Amy  Lee"] in
  NoDup (record_key <$> (merge_surgeons E C).1).
Proof.
  intros E C.
  apply (merge_keeps_keys_distinct E C (drop 1 (merge_surgeons E C).1) eq_refl).
  vm_compute. apply NoDup_singleton.
Defined.

(** X7.  Every record [merge_surgeons] appends has a name that starts with
    the title and has no white space around it, the identifier made from
    that name, and [verified] false; its name parts hold no white space,
    and they are empty exactly when no space follows the title. *)
Theorem merge_new_records E C new :
  (merge_surgeons E C).1 = E ++ new →
  Forall (λ d,
    Py.startswith "Dr." (Surgeon.name d) = true
    ∧ Py.strip (Surgeon.name d) = Surgeon.name d
    ∧ Surgeon.id d = make_id (Surgeon.name d)
    ∧ Surgeon.verified d = false
    ∧ all_chars (λ c, negb (Py.is_space c)) (Surgeon.fn d) = true
    ∧ all_chars (λ c, negb (Py.is_space c)) (Surgeon.ln d) = true
    ∧ (Surgeon.fn d = "" ↔ Py.startswith "Dr. " (Surgeon.name d) = false)
    ∧ (Surgeon.ln d = "" ↔ Py.startswith "Dr. " (Surgeon.name d) = false)) new.
Proof.
  rewrite merge_surgeons_loop. cbn [fst]. intros Hnew.
  eapply Forall_impl; [exact (merge_loop_new (merge_init E) C new Hnew)|].
  intros d (entry & name & _ & Hn & Hdr & Hb). simpl.
  apply build_record_inv in Hb as (Hname & Hid & Hfilled & Hparts).
  rewrite Hname. split; [done|]. split; [by eapply entry_name_strip|].
  split; [done|]. split; [apply Hfilled|].
  destruct (Py.startswith "Dr. " name).
  - destruct Hparts as [[Hf1 Hf2]%first_token_token [Hl1 Hl2]%last_token_token].
    by repeat split.
  - destruct Hparts as [-> ->]. by repeat split.
Qed.

Lemma merge_new_records_witness :
  ∃ d, (merge_surgeons [] [named "  Dr. Jane Smith "]).1 = [d]
       ∧ Surgeon.name d = "Dr. Jane Smith"
       ∧ Surgeon.id d = make_id (Surgeon.name d).
Proof.
  eexists. split; [reflexivity|]. split; [reflexivity|].
  pose proof (merge_new_records [] [named "  Dr. Jane Smith "] _ eq_refl) as H.
  by apply Forall_cons in H as [(_ & _ & ? & _) _].
Defined.

(** X8.  The appended records come in the order of the candidates, one for
    each of some of the candidates that pass the title check, under the
    stripped name; the count returned is their number and at most the number
    of candidates. *)
Theorem merge_order_and_count E C new :
  (merge_surgeons E C).1 = E ++ new →
  Surgeon.name <$> new `sublist_of` omap gate_name C
  ∧ length new ≤ length C
  ∧ ∀ a, (merge_surgeons E C).2 = Py.Ok a → a = length new.
Proof.
  intros Hnew. pose proof Hnew as Hloop.
  rewrite merge_surgeons_loop in Hloop. cbn [fst] in Hloop.
  pose proof (merge_loop_sublist (merge_init E) C new Hloop) as Hsub.
  split; [done|]. split.
  - apply sublist_length in Hsub. rewrite length_fmap in Hsub.
    pose proof (length_omap_le gate_name C). lia.
  - intros a Ha.
    assert (merge_surgeons E C = (E ++ new, Py.Ok a)) as Hm
      by (rewrite <-Hnew, <-Ha; by destruct (merge_surgeons E C)).
    apply merge_count in Hm. rewrite length_app in Hm. lia.
Qed.

Lemma merge_order_and_count_witness :
  let C := [named "Dr. John Doe"; named "Jane Smith"; named " Dr. Amy Lee";
            named "Dr. John Doe"] in
  Surgeon.name <$> (merge_surgeons [] C).1 = ["Dr. John Doe"; "Dr. Amy Lee"]
  ∧ Surgeon.name <$> (merge_surgeons [] C).1 `sublist_of` omap gate_name C.
Proof.
  intros C. split; [reflexivity|].
  exact (proj1 (merge_order_and_count [] C (merge_surgeons [] C).1 eq_refl)).
Defined.

(** X9.  [merge_surgeons] raises only on a candidate whose name is [None],
    and then with [AttributeError]; the list is then left as the candidates
    before the first such one made it. *)
Theorem merge_raises_on_none E C :
  (∀ e, (merge_surgeons E C).2 = Py.Raise e →
        e = Py.AttributeError
        ∧ ∃ entry, entry ∈ C ∧ Entry.name entry = Some None)
  ∧ (∀ C1 bad C2,
       C = C1 ++ bad :: C2 →
       Forall (λ entry, Entry.name entry ≠ Some None) C1 →
       Entry.name bad = Some None →
       merge_surgeons E C
       = ((merge_surgeons E C1).1, Py.Raise Py.AttributeError)).
Proof.
  split.
  - intros e. rewrite merge_surgeons_loop. cbn [snd].
    generalize (merge_init E). induction C as [|entry C IH]; intros st; [done|].
    simpl. destruct (merge_entry st entry) as [st'|e'] eqn:Hm.
    + intros H. destruct (IH st' H) as (-> & entry' & Hin & Hname).
      split; [done|]. exists entry'. split; [by right | done].
    + simpl. intros [= <-]. apply merge_entry_raises in Hm as [Hname ->].
      split; [done|]. exists entry. split; [by left | done].
  - intros C1 bad C2 -> HC1 Hbad. rewrite merge_surgeons_app.
    destruct (merge_surgeons_returns E C1 HC1) as [a1 Ha1].
    destruct (merge_surgeons E C1) as [E1 r1]. simpl in Ha1. subst r1.
    rewrite merge_surgeons_loop. simpl.
    unfold merge_entry, mbind, result_bind, entry_name. by rewrite Hbad.
Qed.

Lemma merge_raises_on_none_witness :
  let bad := {| Entry.name := Some None;
                Entry.org := None; Entry.city := None; Entry.state := None;
                Entry.phone := None; Entry.web := None;
                Entry.profile_url := None; Entry.specs := None;
                Entry.accepting := None; Entry.notes := None;
                Entry.source := None; Entry.source_location := None |} in
  merge_surgeons [] ([named "Dr. Jane Smith"] ++ bad :: [named "Dr. Amy Lee"])
  = ((merge_surgeons [] [named "Dr. Jane Smith"]).1,
     Py.Raise Py.AttributeError).
Proof.
  intros bad.
  apply (proj2 (merge_raises_on_none [] _) [named "Dr. Jane Smith"] bad
           [named "Dr. Amy Lee"] eq_refl); [|reflexivity].
  by repeat constructor.
Defined.

(** X10.  With names that are strings, the keys after a merge are the keys
    before it and those of the candidates that pass the title check, and the
    count returned is the number of candidate keys that were not there. *)
Theorem merge_key_set E C :
  Forall (λ entry, Entry.name entry ≠ Some None) C →
  names_of (merge_surgeons E C).1 = names_of E ∪ candidate_keys C
  ∧ (merge_surgeons E C).2 = Py.Ok (size (candidate_keys C ∖ names_of E)).
Proof. apply merge_surgeons_keys. Qed.

Lemma merge_key_set_witness :
  let C := [named "Dr. Jane Smith"; named "Dr. jane smith"; named "Jane Smith"] in
  (merge_surgeons [] C).2 = Py.Ok (size (candidate_keys C ∖ names_of [])).
Proof.
  intros C. apply (merge_key_set [] C). by repeat constructor.
Defined.

(** X11.  With names that are strings, the order of the candidates changes
    neither the count returned nor the keys the list ends up with. *)
Theorem merge_order_independent E C C' :
  Forall (λ entry, Entry.name entry ≠ Some None) C →
  C ≡ₚ C' →
  (merge_surgeons E C).2 = (merge_surgeons E C').2
  ∧ names_of (merge_surgeons E C).1 = names_of (merge_surgeons E C').1.
Proof.
  intros HC Hperm.
  assert (Forall (λ entry, Entry.name entry ≠ Some None) C') as HC'
    by (by rewrite <-Hperm).
  destruct (merge_surgeons_keys E C HC) as [-> ->].
  destruct (merge_surgeons_keys E C' HC') as [-> ->].
  by rewrite (candidate_keys_perm C C' Hperm).
Qed.

Lemma merge_order_independent_witness :
  (merge_surgeons [] [named "Dr. Jane Smith"; named "Dr. JANE SMITH"]).2
  = (merge_surgeons [] [named "Dr. JANE SMITH"; named "Dr. Jane Smith"]).2.
Proof.
  apply (merge_order_independent [] [named "Dr. Jane Smith"; named "Dr. JANE SMITH"]).
  - by repeat constructor.
  - apply Permutation_swap.
Defined.

(** ** The page loop, further *)

Lemma page_body_spec get page surgeons :
  page_body get page surgeons
  = (surgeons ++ page_entries get page,
     if continues get page then NextPage else Break).
Proof.
  unfold page_body, page_entries, continues.
  destruct (get page) as [doc|]; [|by rewrite app_nil_r].
  destruct (cards doc); [by rewrite app_nil_r | done].
Qed.

(** The loop gathers the entries of the pages it requests, goes on while
    the pages tell it to, and stops at the first that does not or at 40. *)
Lemma page_loop_result get page surgeons requested :
  ∃ k,
    page_loop get page surgeons requested
    = (surgeons ++ flat_map (page_entries get) (seq page (S k)),
       requested ++ seq page (S k))
    ∧ (∀ n, page ≤ n < page + k → continues get n = true)
    ∧ (continues get (page + k) = false ∨ 40 ≤ page + k)
    ∧ (page + k ≤ 40 ∨ k = 0).
Proof.
  funelim (page_loop get page surgeons requested);
    match goal with
    | H : page_body _ _ _ = _ |- _ =>
        rewrite page_body_spec in H; injection H as <- Hc
    end.
  - exists 0. cbn [seq flat_map]. rewrite app_nil_r, Nat.add_0_r.
    split; [done|]. split; [intros i ?; lia|].
    split; [|by right]. left. by destruct (continues get page).
  - exists 0. cbn [seq flat_map]. rewrite app_nil_r, Nat.add_0_r.
    split; [done|]. split; [intros i ?; lia|]. split; [right; lia | by right].
  - match goal with
    | IH : ∃ k, _ |- _ => destruct IH as (k & -> & Hgo & Hstop & Hcap)
    end.
    exists (S k). rewrite Nat.add_1_r in *. split.
    { rewrite <-!app_assoc. cbn [seq flat_map app]. done. }
    split.
    { intros i Hi. destruct (decide (i = page)) as [->|].
      - by destruct (continues get page).
      - apply Hgo. lia. }
    rewrite <-Nat.add_succ_comm. split; [done|]. left. lia.
Qed.

(** X12.  What [scrape_icarebetter] returns is, page after page in the
    order requested, the candidates made from the cards of each page; a page
    that could not be fetched gives none. *)
Theorem scrape_icarebetter_pages get :
  scrape_icarebetter get
  = flat_map (page_entries get) (icarebetter_requests get).
Proof.
  unfold scrape_icarebetter, icarebetter_requests.
  destruct (page_loop_result get 1 [] []) as (k & -> & _). done.
Qed.

(** X13.  [scrape_icarebetter] requests page 1, then each next page as long
    as the one before was fetched, had cards and a next-page link, and stops
    after the first page for which that fails, or after page 40. *)
Theorem scrape_icarebetter_stops get :
  ∃ k, icarebetter_requests get = seq 1 k
       ∧ 1 ≤ k ≤ 40
       ∧ (∀ n, 1 ≤ n < k → continues get n = true)
       ∧ (continues get k = false ∨ k = 40).
Proof.
  unfold icarebetter_requests.
  destruct (page_loop_result get 1 [] []) as (k & -> & Hgo & Hstop & Hcap).
  exists (S k). split; [done|]. split; [lia|]. split.
  - intros n Hn. apply Hgo. lia.
  - destruct Hstop as [?|?]; [by left | right; lia].
Qed.

Lemma rstrip_cons_keep p c s :
  p c = false → Py.rstrip_with p (String c s) = String c (Py.rstrip_with p s).
Proof.
  intros Hp. cbn [Py.rstrip_with].
  destruct (Py.rstrip_with p s); by rewrite ?Hp.
Qed.

(** Stripping leaves a leading title where it is. *)
Lemma startswith_title_strip name :
  Py.startswith "Dr." name = true → Py.startswith "Dr." (Py.strip name) = true.
Proof.
  intros [rest ->]%prefix_split. unfold Py.strip, Py.strip_with.
  change ("Dr." +:+ rest) with (String "D" (String "r" (String "." rest))).
  cbn [Py.lstrip_with]. change (Py.is_space "D") with false. cbn iota.
  rewrite !rstrip_cons_keep by done.
  apply (prefix_append "Dr.").
Qed.

Lemma card_entry_inv c entry :
  card_entry c = Some entry →
  ∃ name, Entry.name entry = Some (Some name)
          ∧ Py.startswith "Dr." name = true
          ∧ Entry.source entry = Some "iCareBetter"
          ∧ Entry.specs entry = Some ["Excision Surgery"]
          ∧ Entry.accepting entry = Some true
          ∧ Entry.notes entry = None.
Proof.
  unfold card_entry. destruct (name_tag c) as [name|]; [|done].
  destruct (Py.startswith "Dr." name) eqn:Hdr; [|done].
  intros [= <-]. by exists name.
Qed.

Lemma scrape_icarebetter_entries get entry :
  entry ∈ scrape_icarebetter get →
  ∃ c, card_entry c = Some entry.
Proof.
  unfold scrape_icarebetter.
  destruct (page_loop_result get 1 [] []) as (k & -> & _). cbn [fst app].
  rewrite list_elem_of_In, in_flat_map. intros (page & _ & Hin).
  unfold page_entries in Hin. destruct (get page) as [doc|]; [|done].
  apply list_elem_of_In, list_elem_of_omap in Hin as (c & _ & Hc). eauto.
Qed.

(** X14.  Every candidate [scrape_icarebetter] returns carries a name that
    starts with the title, the source tag [iCareBetter], the default
    specialty and no notes; it passes the title check of [merge_surgeons],
    which therefore returns on the scraped list. *)
Theorem scrape_icarebetter_candidates get :
  Forall (λ entry,
    ∃ name, Entry.name entry = Some (Some name)
            ∧ Py.startswith "Dr." name = true
            ∧ Entry.source entry = Some "iCareBetter"
            ∧ Entry.specs entry = Some ["Excision Surgery"]
            ∧ Entry.accepting entry = Some true
            ∧ Entry.notes entry = None
            ∧ gate_name entry = Some (Py.strip name))
    (scrape_icarebetter get)
  ∧ ∀ E, ∃ a, (merge_surgeons E (scrape_icarebetter get)).2 = Py.Ok a.
Proof.
  assert (∀ entry, entry ∈ scrape_icarebetter get →
            ∃ name, Entry.name entry = Some (Some name)
                    ∧ Py.startswith "Dr." name = true
                    ∧ Entry.source entry = Some "iCareBetter"
                    ∧ Entry.specs entry = Some ["Excision Surgery"]
                    ∧ Entry.accepting entry = Some true
                    ∧ Entry.notes entry = None) as Hall.
  { intros entry [c Hc]%scrape_icarebetter_entries. by eapply card_entry_inv. }
  split.
  - apply Forall_forall. intros entry Hin.
    destruct (Hall entry Hin) as (name & Hn & Hdr & Hrest).
    exists name. split; [done|]. split; [done|].
    destruct Hrest as (? & ? & ? & ?). do 4 (split; [done|]).
    apply gate_name_inv. split; [unfold entry_name; by rewrite Hn|].
    by apply startswith_title_strip.
  - intros E. apply merge_surgeons_returns, Forall_forall.
    intros entry Hin. destruct (Hall entry Hin) as (name & -> & _). done.
Qed.

(** ** The sort *)

Section sort_facts.
Implicit Types (k : string * string) (d : surgeon) (l : list surgeon).

Lemma compare_refl (s : string) : String.compare s s = Eq.
Proof.
  pose proof (String.compare_antisym s s) as H.
  destruct (String.compare s s); done.
Qed.

Lemma leb_trans (s1 s2 s3 : string) :
  String.leb s1 s2 = true → String.leb s2 s3 = true → String.leb s1 s3 = true.
Proof.
  intros H1 H2. apply Is_true_true.
  change (String.le s1 s3). trans s2; unfold String.le; by apply Is_true_true.
Qed.

Lemma compare_Lt_leb (s1 s2 : string) :
  String.compare s1 s2 = Lt → String.leb s1 s2 = true.
Proof. unfold String.leb. by intros ->. Qed.

Lemma compare_Lt_trans (s1 s2 s3 : string) :
  String.compare s1 s2 = Lt → String.compare s2 s3 = Lt →
  String.compare s1 s3 = Lt.
Proof.
  intros H1 H2.
  pose proof (leb_trans _ _ _ (compare_Lt_leb _ _ H1) (compare_Lt_leb _ _ H2))
    as H3.
  unfold String.leb in H3. destruct (String.compare s1 s3) eqn:Hc; [|done..].
  apply String.compare_eq_iff in Hc as ->.
  rewrite String.compare_antisym, H1 in H2. discriminate H2.
Qed.

Lemma key_le_refl k : key_le k k = true.
Proof.
  unfold key_le. rewrite compare_refl. unfold String.leb.
  by rewrite compare_refl.
Qed.

Lemma key_le_total k1 k2 : key_le k1 k2 = false → key_le k2 k1 = true.
Proof.
  unfold key_le, String.leb. rewrite (String.compare_antisym k2.1 k1.1).
  destruct (String.compare k1.1 k2.1) eqn:H1; simpl; [|done..].
  rewrite (String.compare_antisym k2.2 k1.2).
  by destruct (String.compare k1.2 k2.2).
Qed.

Lemma key_le_trans k1 k2 k3 :
  key_le k1 k2 = true → key_le k2 k3 = true → key_le k1 k3 = true.
Proof.
  unfold key_le.
  destruct (String.compare k1.1 k2.1) eqn:H12; [| |done];
    destruct (String.compare k2.1 k3.1) eqn:H23; try done.
  - apply String.compare_eq_iff in H12. apply String.compare_eq_iff in H23.
    rewrite H12, H23, compare_refl. apply leb_trans.
  - apply String.compare_eq_iff in H12. by rewrite H12, H23.
  - apply String.compare_eq_iff in H23. by rewrite <-H23, H12.
  - by rewrite (compare_Lt_trans _ _ _ H12 H23).
Qed.

Global Instance key_before_trans : Transitive key_before.
Proof. intros d1 d2 d3. apply key_le_trans. Qed.

Lemma insert_sorted_HdRel d0 d l :
  key_before d0 d → HdRel key_before d0 l →
  HdRel key_before d0 (insert_sorted d l).
Proof.
  intros Hd Hl. destruct l as [|d' l]; simpl; [by constructor|].
  destruct (key_le (sort_key d) (sort_key d')); constructor; [done|].
  by inversion Hl.
Qed.

Lemma insert_sorted_Sorted d l :
  Sorted key_before l → Sorted key_before (insert_sorted d l).
Proof.
  induction l as [|d' l IH]; intros Hl; simpl; [by repeat constructor|].
  destruct (key_le (sort_key d) (sort_key d')) eqn:Hle.
  - constructor; [done|]. by constructor.
  - inversion Hl as [|? ? Hl' Hhd]; subst. constructor; [by apply IH|].
    apply insert_sorted_HdRel; [|done]. by apply key_le_total.
Qed.

Lemma sort_surgeons_Sorted l : Sorted key_before (sort_surgeons l).
Proof.
  induction l as [|d l IH]; [constructor|].
  unfold sort_surgeons in *. simpl. by apply insert_sorted_Sorted.
Qed.

(** A list already in order is left as it is. *)
Lemma sort_surgeons_sorted_id l :
  Sorted key_before l → sort_surgeons l = l.
Proof.
  induction l as [|d l IH]; [done|]. intros Hl.
  inversion Hl as [|? ? Hl' Hhd]; subst.
  unfold sort_surgeons in *. simpl. rewrite IH by done.
  destruct l as [|d' l]; [done|]. simpl.
  inversion Hhd as [|? ? Hle]; subst. by rewrite Hle.
Qed.

Lemma insert_sorted_filter k d l :
  filter (λ d', sort_key d' = k) (insert_sorted d l)
  = filter (λ d', sort_key d' = k) (d :: l).
Proof.
  induction l as [|d' l IH]; [done|]. simpl.
  destruct (key_le (sort_key d) (sort_key d')) eqn:Hle; [done|].
  rewrite filter_cons, IH, !filter_cons.
  destruct (decide (sort_key d' = k)) as [Hd'|]; [|done].
  destruct (decide (sort_key d = k)) as [Hd|]; [|done].
  rewrite Hd, Hd', key_le_refl in Hle. discriminate Hle.
Qed.

End sort_facts.

(** X15.  The list [main] saves is in order, by state and then by the
    lowercased last name, and holds the same records as before the sort. *)
Theorem sort_surgeons_ordered l :
  StronglySorted key_before (sort_surgeons l) ∧ sort_surgeons l ≡ₚ l.
Proof.
  split; [|apply sort_surgeons_perm].
  apply Sorted_StronglySorted; [apply key_before_trans|].
  apply sort_surgeons_Sorted.
Qed.

(** X16.  The sort is stable: records with the same state and the same
    lowercased last name stay in the order they had. *)
Theorem sort_surgeons_stable l k :
  filter (λ d, sort_key d = k) (sort_surgeons l)
  = filter (λ d, sort_key d = k) l.
Proof.
  induction l as [|d l IH]; [done|].
  unfold sort_surgeons in *. simpl.
  by rewrite insert_sorted_filter, !filter_cons, IH.
Qed.

(** ** Runs *)

Section rerun_facts.
Implicit Types (st : merge_state) (entry : candidate).
Implicit Types (E F : list surgeon) (C : list candidate).
Implicit Types (rs : run_state) (src : string * Py.result (list candidate)).
Implicit Types (scrapers : list (string * Py.result (list candidate))).

Lemma merge_entry_raise_again st st2 entry e :
  merge_entry st entry = Py.Raise e → merge_entry st2 entry = Py.Raise e.
Proof.
  intros [Hname ->]%merge_entry_raises.
  unfold merge_entry, mbind, result_bind, entry_name. by rewrite Hname.
Qed.

(** The candidates of a finished loop, raised or not, do the same and add
    nothing once the keys that loop reached are known. *)
Lemma merge_loop_again st C st' r st2 :
  merge_loop st C = (st', r) →
  existing_names st' ⊆ existing_names st2 →
  merge_loop st2 C = (st2, r).
Proof.
  revert st. induction C as [|entry C IH]; intros st Hl Hsub.
  - simpl in Hl. by injection Hl as _ <-.
  - simpl in *. destruct (merge_entry st entry) as [st1|e] eqn:Hm.
    + rewrite (merge_entry_seen st entry st1 st2 Hm).
      * by eapply IH.
      * etrans; [|exact Hsub].
        pose proof (merge_loop_names st1 C) as Hn. by rewrite Hl in Hn.
    + injection Hl as <- <-.
      by rewrite (merge_entry_raise_again st st2 entry e Hm).
Qed.

Lemma merge_surgeons_again E C E2 :
  names_of (merge_surgeons E C).1 ⊆ names_of E2 →
  merge_surgeons E2 C
  = (E2, match (merge_surgeons E C).2 with
         | Py.Ok _ => Py.Ok 0
         | Py.Raise e => Py.Raise e
         end).
Proof.
  rewrite !merge_surgeons_loop. cbn [fst snd]. intros Hsub.
  pose proof (merge_loop_coherent (merge_init E) C (merge_init_coherent E))
    as Hco.
  destruct (merge_loop (merge_init E) C) as [st' r] eqn:Hl. cbn [fst snd] in *.
  rewrite (merge_loop_again _ _ _ _ (merge_init E2) Hl); [by destruct r|].
  by rewrite Hco.
Qed.

Lemma names_of_prefix E F : E `prefix_of` F → names_of E ⊆ names_of F.
Proof.
  intros [new ->]. unfold names_of. rewrite fmap_app, list_to_set_app_L.
  apply union_subseteq_l.
Qed.

Lemma names_of_perm E F : E ≡ₚ F → names_of E = names_of F.
Proof. intros H. unfold names_of. by rewrite H. Qed.

Lemma run_source_again rs rs2 src :
  names_of (run_existing (run_source rs src)) ⊆ names_of (run_existing rs2) →
  run_existing (run_source rs2 src) = run_existing rs2
  ∧ total_added (run_source rs2 src) = total_added rs2.
Proof.
  destruct src as [source_name [new_entries|[msg]]]; simpl; [|done].
  intros Hsub.
  assert (names_of (merge_surgeons (run_existing rs) new_entries).1
          ⊆ names_of (run_existing rs2)) as Hsub'.
  { by destruct (merge_surgeons (run_existing rs) new_entries)
      as [existing' [a|[msg]]]. }
  rewrite (merge_surgeons_again _ _ _ Hsub').
  destruct (merge_surgeons (run_existing rs) new_entries).2 as [a|[msg]];
    simpl; split; [done|lia|done..].
Qed.

Lemma run_sources_again rs rs2 scrapers :
  names_of (run_existing (run_sources rs scrapers))
    ⊆ names_of (run_existing rs2) →
  run_existing (run_sources rs2 scrapers) = run_existing rs2
  ∧ total_added (run_sources rs2 scrapers) = total_added rs2.
Proof.
  revert rs rs2. induction scrapers as [|src scrapers IH]; intros rs rs2 Hsub;
    [done|].
  simpl in *.
  destruct (run_source_again rs rs2 src) as [He Ht].
  { etrans; [|exact Hsub]. apply names_of_prefix, run_sources_prefix. }
  destruct (IH (run_source rs src) (run_source rs2 src)) as [He' Ht'].
  { by rewrite He. }
  by rewrite He', Ht', He, Ht.
Qed.

(** *** The outcome entries *)

Lemma run_source_dom rs src :
  dom (results_by_source (run_source rs src))
  = {[src.1]} ∪ dom (results_by_source rs).
Proof.
  destruct src as [source_name [new_entries|[msg]]]; simpl.
  - destruct (merge_surgeons (run_existing rs) new_entries)
      as [existing' [a|[msg]]]; simpl; apply dom_insert_L.
  - apply dom_insert_L.
Qed.

Lemma run_sources_dom rs scrapers :
  dom (results_by_source (run_sources rs scrapers))
  = dom (results_by_source rs) ∪ list_to_set scrapers.*1.
Proof.
  revert rs. induction scrapers as [|src scrapers IH]; intros rs.
  - simpl. by rewrite union_empty_r_L.
  - rewrite fmap_cons, list_to_set_cons. simpl. rewrite IH, run_source_dom.
    apply set_eq. intros x. rewrite !elem_of_union. tauto.
Qed.

Lemma merge_surgeons_count_le E C E' a :
  merge_surgeons E C = (E', Py.Ok a) → a ≤ length C.
Proof.
  intros Hm. pose proof (merge_count E C E' a Hm) as Hlen.
  destruct (merge_surgeons_appends E C) as [new Hnew].
  rewrite Hm in Hnew. cbn [fst] in Hnew. subst E'.
  rewrite merge_surgeons_loop in Hm. injection Hm as Hex _.
  apply merge_loop_sublist, sublist_length in Hex.
  rewrite length_fmap in Hex. pose proof (length_omap_le gate_name C).
  rewrite length_app in Hlen. lia.
Qed.

Lemma run_source_counts rs src :
  (∀ n s a, results_by_source rs !! n = Some (Counts s a) → a ≤ s) →
  ∀ n s a,
    results_by_source (run_source rs src) !! n = Some (Counts s a) → a ≤ s.
Proof.
  intros Hinv n s a. destruct src as [source_name [new_entries|[msg]]]; simpl.
  - destruct (merge_surgeons (run_existing rs) new_entries)
      as [existing' [a'|[msg]]] eqn:Hm; simpl;
      (destruct (decide (source_name = n)) as [->|Hne];
       [rewrite lookup_insert_eq | rewrite lookup_insert_ne by done]);
      try (by apply Hinv); [|done].
    intros [= <- <-]. by eapply merge_surgeons_count_le.
  - destruct (decide (source_name = n)) as [->|Hne];
      [by rewrite lookup_insert_eq | rewrite lookup_insert_ne by done].
    apply Hinv.
Qed.

Lemma run_sources_counts rs scrapers :
  (∀ n s a, results_by_source rs !! n = Some (Counts s a) → a ≤ s) →
  ∀ n s a,
    results_by_source (run_sources rs scrapers) !! n = Some (Counts s a) →
    a ≤ s.
Proof.
  revert rs. induction scrapers as [|src scrapers IH]; intros rs Hinv; [done|].
  simpl. by apply IH, run_source_counts.
Qed.

(** *** The tally *)

Lemma run_source_tally rs src :
  length (run_existing rs) + total_added (run_source rs src)
    ≤ length (run_existing (run_source rs src)) + total_added rs
  ∧ ((∀ entries, src.2 = Py.Ok entries →
        Forall (λ entry, Entry.name entry ≠ Some None) entries) →
     length (run_existing rs) + total_added (run_source rs src)
     = length (run_existing (run_source rs src)) + total_added rs).
Proof.
  destruct src as [source_name [new_entries|[msg]]]; simpl; [|split; lia].
  destruct (merge_surgeons_appends (run_existing rs) new_entries)
    as [new Hnew].
  destruct (merge_surgeons (run_existing rs) new_entries)
    as [existing' [a|[msg]]] eqn:Hm; simpl in *.
  - apply merge_count in Hm. split; lia.
  - subst existing'. rewrite length_app. split; [lia|]. intros Hgood.
    destruct (merge_surgeons_returns (run_existing rs) new_entries) as [a Ha];
      [by apply Hgood|].
    by rewrite Hm in Ha.
Qed.

Lemma run_sources_tally rs scrapers :
  length (run_existing rs) + total_added (run_sources rs scrapers)
    ≤ length (run_existing (run_sources rs scrapers)) + total_added rs
  ∧ (Forall (λ src, ∀ entries, src.2 = Py.Ok entries →
               Forall (λ entry, Entry.name entry ≠ Some None) entries)
       scrapers →
     length (run_existing rs) + total_added (run_sources rs scrapers)
     = length (run_existing (run_sources rs scrapers)) + total_added rs).
Proof.
  revert rs. induction scrapers as [|src scrapers IH]; intros rs;
    [split; [done|by intros _]|].
  simpl. destruct (run_source_tally rs src) as [Hle Heq].
  destruct (IH (run_source rs src)) as [Hle' Heq'].
  split; [lia|]. intros [Hsrc Hrest]%Forall_cons.
  specialize (Heq Hsrc). specialize (Heq' Hrest). lia.
Qed.

End rerun_facts.

(** X17.  Running [main] again on what it saved, with the scrapers giving
    the same as before, saves the same list and logs that nothing was
    added. *)
Theorem rerun_changes_nothing loaded history scrapers now history' now' :
  let saved := (main loaded history scrapers now).1 in
  (main saved history' scrapers now').1 = saved
  ∧ ∃ e, last (main saved history' scrapers now').2 = Some e
         ∧ added_this_run e = 0
         ∧ total_surgeons e = length saved.
Proof.
  intros saved.
  set (st0 := {| run_existing := loaded; total_added := 0;
                 results_by_source := ∅ |}).
  set (rs2 := {| run_existing := saved; total_added := 0;
                 results_by_source := ∅ |}).
  destruct (run_sources_again st0 rs2 scrapers) as [He Ht].
  { unfold rs2, saved, main. cbn [fst run_existing]. fold st0.
    by rewrite (names_of_perm _ _ (sort_surgeons_perm _)). }
  assert (sort_surgeons saved = saved) as Hsorted
    by apply sort_surgeons_sorted_id, sort_surgeons_Sorted.
  destruct (main_saves saved history' scrapers now') as (Hm1 & _ & Hm2).
  fold rs2 in Hm1, Hm2. rewrite He in Hm1, Hm2. rewrite Ht in Hm2.
  split; [by rewrite Hm1|]. eexists. split; [exact Hm2|]. done.
Qed.

(** X18.  Starting from no outcome entries, as [main] does, the run ends
    with one entry for every source and no other, and no entry counts more
    added than scraped. *)
Theorem every_source_has_outcome loaded scrapers :
  let st := run_sources {| run_existing := loaded; total_added := 0;
                           results_by_source := ∅ |} scrapers in
  dom (results_by_source st) = list_to_set scrapers.*1
  ∧ ∀ n s a, results_by_source st !! n = Some (Counts s a) → a ≤ s.
Proof.
  intros st. split.
  - unfold st. rewrite run_sources_dom. simpl.
    by rewrite dom_empty_L, union_empty_l_L.
  - apply run_sources_counts. simpl. intros n s a. by rewrite lookup_empty.
Qed.

Lemma every_source_has_outcome_witness :
  let scrapers := [("iCareBetter", Py.Ok [named "Dr. Jane Smith"; named "x"]);
                   ("EndofEndo", Py.Raise (Py.Exn "timed out"))] in
  let st := run_sources {| run_existing := []; total_added := 0;
                           results_by_source := ∅ |} scrapers in
  results_by_source st !! "iCareBetter" = Some (Counts 2 1) ∧ 1 ≤ 2.
Proof.
  intros scrapers st. split; [reflexivity|].
  apply (proj2 (every_source_has_outcome [] scrapers) "iCareBetter").
  reflexivity.
Defined.

(** X19.  The records gained over a run are at least the total added, and
    exactly the total added when no candidate has [None] for a name (so that
    no merge raises).  When the merge of a source raises at such a
    candidate, the records the candidates before it added stay in the list
    and the total does not count them, so the list is ahead of the total by
    their number. *)
Theorem run_tally st scrapers :
  length (run_existing st) + total_added (run_sources st scrapers)
    ≤ length (run_existing (run_sources st scrapers)) + total_added st
  ∧ (Forall (λ src, ∀ entries, src.2 = Py.Ok entries →
               Forall (λ entry, Entry.name entry ≠ Some None) entries)
       scrapers →
     length (run_existing st) + total_added (run_sources st scrapers)
     = length (run_existing (run_sources st scrapers)) + total_added st)
  ∧ (∀ before src after C1 bad C2 a1,
       scrapers = before ++ src :: after →
       src.2 = Py.Ok (C1 ++ bad :: C2) →
       Forall (λ entry, Entry.name entry ≠ Some None) C1 →
       Entry.name bad = Some None →
       (merge_surgeons (run_existing (run_sources st before)) C1).2
         = Py.Ok a1 →
       length (run_existing (run_source (run_sources st before) src))
         = length (run_existing (run_sources st before)) + a1
       ∧ total_added (run_source (run_sources st before) src)
         = total_added (run_sources st before)
       ∧ length (run_existing st) + total_added (run_sources st scrapers) + a1
         ≤ length (run_existing (run_sources st scrapers)) + total_added st).
Proof.
  split; [apply run_sources_tally|]. split; [apply run_sources_tally|].
  intros before src after C1 bad C2 a1 -> Hsrc HC1 Hbad Ha1.
  set (st1 := run_sources st before) in *.
  destruct (run_source_merge_raises st1 src C1 bad C2 Hsrc HC1 Hbad)
    as [He Ht].
  assert (length (run_existing (run_source st1 src))
          = length (run_existing st1) + a1) as Hlen.
  { rewrite He. apply (merge_count _ C1).
    rewrite <-Ha1. by destruct (merge_surgeons (run_existing st1) C1). }
  split; [done|]. split; [done|].
  rewrite run_sources_app. fold st1. cbn [run_sources foldl].
  pose proof (proj1 (run_sources_tally st before)) as Hb. fold st1 in Hb.
  pose proof (proj1 (run_sources_tally (run_source st1 src) after)) as Ha.
  unfold run_sources in *. lia.
Qed.

Lemma run_tally_witness :
  let bad := {| Entry.name := Some None;
                Entry.org := None; Entry.city := None; Entry.state := None;
                Entry.phone := None; Entry.web := None;
                Entry.profile_url := None; Entry.specs := None;
                Entry.accepting := None; Entry.notes := None;
                Entry.source := None; Entry.source_location := None |} in
  let st := {| run_existing := []; total_added := 0; results_by_source := ∅ |} in
  let src := ("EndofEndo",
              Py.Ok ([named "Dr. Jane Smith"] ++ bad :: [named "Dr. Cy Dee"])) in
  let scrapers := [] ++ src :: [("Pelvic Rehab", Py.Ok [named "Dr. Amy Lee"])] in
  Surgeon.name <$> run_existing (run_sources st scrapers)
    = ["Dr. Jane Smith"; "Dr. Amy Lee"]
  ∧ total_added (run_sources st scrapers) = 1
  ∧ length (run_existing (run_source (run_sources st []) src))
    = length (run_existing (run_sources st [])) + 1.
Proof.
  intros bad st src scrapers. split; [reflexivity|]. split; [reflexivity|].
  refine (proj1 (proj2 (proj2 (run_tally st scrapers)) [] src
                   [("Pelvic Rehab", Py.Ok [named "Dr. Amy Lee"])]
                   [named "Dr. Jane Smith"] bad [named "Dr. Cy Dee"] 1
                   eq_refl eq_refl _ eq_refl eq_refl)).
  by repeat constructor.
Defined.

(** ** The name search *)

Section search_facts.
Implicit Types (s t u text name : string) (q : word_state).

Lemma slice_to_append t u : slice_to (String.length t) (t +:+ u) = t.
Proof.
  induction t as [|c t IH]; [by destruct u|].
  rewrite append_cons. simpl. by rewrite IH.
Qed.

Lemma slice_to_all s : slice_to (String.length s) s = s.
Proof. rewrite <-(append_nil_r s) at 2. apply slice_to_append. Qed.

Lemma accepted_inv q words n best m :
  accepted q words n best = Some m →
  best = Some m ∨ (m = n ∧ match_words q words "" = true).
Proof.
  unfold accepted. destruct q; try (intros ?; by left).
  destruct (2 <=? words) eqn:Hw; [|intros ?; by left].
  intros [= <-]. right. split; [done|]. exact Hw.
Qed.

(** What the automaton kept is the earlier best or a prefix it accepts. *)
Lemma longest_words_sound q words n best s m :
  longest_words q words n best s = Some m →
  best = Some m
  ∨ ∃ t u, s = t +:+ u ∧ m = n + String.length t
           ∧ match_words q words t = true.
Proof.
  revert q words n best.
  induction s as [|c s IH]; intros q words n best.
  - simpl. intros [?|[-> ?]]%accepted_inv; [by left|].
    right. exists "", "". by rewrite Nat.add_0_r.
  - assert (accepted q words n best = Some m →
            best = Some m
            ∨ ∃ t u, String c s = t +:+ u ∧ m = n + String.length t
                     ∧ match_words q words t = true) as Hstop.
    { intros [?|[-> ?]]%accepted_inv; [by left|].
      right. exists "", (String c s). by rewrite Nat.add_0_r. }
    assert (∀ q' w',
              (∀ t, match_words q' w' t = true →
                    match_words q words (String c t) = true) →
              longest_words q' w' (S n) (accepted q words n best) s = Some m →
              best = Some m
              ∨ ∃ t u, String c s = t +:+ u ∧ m = n + String.length t
                       ∧ match_words q words t = true) as Hgo.
    { intros q' w' Hext [Hb|(t & u & -> & -> & Ht)]%IH; [by apply Hstop|].
      right. exists (String c t), u. rewrite append_cons. simpl.
      split; [done|]. split; [lia|]. by apply Hext. }
    cbn [longest_words]. destruct q.
    + destruct (Py.is_upper c) eqn:Hc; [|exact Hstop].
      apply Hgo. intros t Ht. simpl. by rewrite Hc.
    + destruct (Py.is_lower c) eqn:Hc; [|exact Hstop].
      apply Hgo. intros t Ht. simpl. by rewrite Hc.
    + destruct (Py.is_lower c) eqn:Hc.
      { apply Hgo. intros t Ht. simpl. by rewrite Hc. }
      case_bool_decide as Hsp; [|exact Hstop].
      apply Hgo. intros t Ht. simpl. rewrite Hc, Ht.
      by rewrite bool_decide_eq_true_2.
Qed.

(** A string the automaton accepts whole is its own longest match. *)
Lemma longest_words_whole q words n best s :
  match_words q words s = true →
  longest_words q words n best s = Some (n + String.length s).
Proof.
  revert q words n best.
  induction s as [|c s IH]; intros q words n best H.
  - destruct q; try discriminate. simpl in *. by rewrite H, Nat.add_0_r.
  - cbn [longest_words match_words] in *. cbn [String.length].
    rewrite <-Nat.add_succ_comm. destruct q.
    + apply andb_prop in H as [-> H]. by apply IH.
    + apply andb_prop in H as [-> H]. by apply IH.
    + destruct (Py.is_lower c); [by apply IH|].
      apply andb_prop in H as [-> H]. by apply IH.
Qed.

Lemma match_name_at_sound s n :
  match_name_at s = Some n →
  ∃ t u, s = ("Dr. " +:+ t) +:+ u ∧ n = String.length ("Dr. " +:+ t)
         ∧ title_name ("Dr. " +:+ t) = true.
Proof.
  unfold match_name_at. intros H.
  repeat (match type of H with
          | match ?x with _ => _ end = Some _ => destruct x; try discriminate
          end).
  apply longest_words_sound in H as [?|(t & u & -> & -> & Ht)]; [done|].
  by exists t, u.
Qed.

Lemma search_name_sound text name :
  search_name text = Some name →
  title_name name = true ∧ ∃ pre post, text = pre +:+ name +:+ post.
Proof.
  induction text as [|c text IH].
  - simpl. done.
  - cbn [search_name].
    destruct (match_name_at (String c text)) as [n|] eqn:Hm.
    + apply match_name_at_sound in Hm as (t & u & Htext & -> & Ht).
      rewrite Htext, slice_to_append. intros [= <-].
      split; [done|]. by exists "", u.
    + intros (Ht & pre & post & ->)%IH. split; [done|].
      by exists (String c pre), post.
Qed.

(** A name of the shape has no white space around it and starts with the
    title, so [merge_surgeons] takes it as it is. *)
Lemma title_name_gate name :
  title_name name = true → gate_name (named name) = Some name.
Proof.
  intros Ht. apply gate_name_inv.
  destruct (title_name_last name Ht) as (c & Hl & Hc).
  destruct (lower_letter_facts c Hc) as (Hs & _).
  assert (Py.strip name = name) as Hstrip.
  { unfold Py.strip, Py.strip_with.
    assert (Py.lstrip_with Py.is_space name = name) as ->;
      [|by apply (rstrip_keeps _ _ c)].
    unfold title_name in Ht. destruct name as [|c0 name]; [done|].
    apply (lstrip_keeps _ _ c0); [done|].
    by destruct c0 as [[] [] [] [] [] [] [] []]. }
  unfold entry_name. simpl. rewrite Hstrip. split; [done|].
  unfold title_name in Ht.
  repeat (match type of Ht with
          | match ?x with _ => _ end = true => destruct x; try discriminate
          end).
  reflexivity.
Qed.

End search_facts.

(** X20.  The name the pattern of [scrape_endofendo] and
    [scrape_pelvic_rehab] finds in a text is a piece of that text of the
    shape [Dr. Given Family], and a candidate carrying it passes the title
    check of [merge_surgeons] under that very name. *)
Theorem search_name_found text name :
  search_name text = Some name →
  title_name name = true
  ∧ (∃ pre post, text = pre +:+ name +:+ post)
  ∧ gate_name (named name) = Some name.
Proof.
  intros [Ht Hsub]%search_name_sound. split; [done|]. split; [done|].
  by apply title_name_gate.
Qed.

Lemma search_name_found_witness :
  search_name "Call Dr. Jane Smith MD, Austin, TX" = Some "Dr. Jane Smith"
  ∧ title_name "Dr. Jane Smith" = true.
Proof.
  split; [reflexivity|].
  exact (proj1 (search_name_found "Call Dr. Jane Smith MD, Austin, TX"
                  "Dr. Jane Smith" eq_refl)).
Defined.

(** X21.  In a text that is itself a name of the shape, the search finds
    the whole text. *)
Theorem search_name_whole name :
  title_name name = true → search_name name = Some name.
Proof.
  intros Ht. destruct name as [|c name]; [done|].
  cbn [search_name].
  assert (match_name_at (String c name)
          = Some (String.length (String c name))) as ->;
    [|by rewrite slice_to_all].
  unfold title_name in Ht. unfold match_name_at.
  repeat (match type of Ht with
          | match ?x with _ => _ end = true => destruct x; try discriminate
          end).
  by rewrite (longest_words_whole _ _ 4 None _ Ht).
Qed.

Lemma search_name_whole_witness :
  search_name "Dr. Amy Lee" = Some "Dr. Amy Lee".
Proof. apply search_name_whole. reflexivity. Defined.

(** ** Fault isolation *)

Lemma run_source_existing rs rs' src :
  run_existing rs = run_existing rs' →
  run_existing (run_source rs src) = run_existing (run_source rs' src).
Proof.
  intros He. destruct src as [source_name [new_entries|[msg]]]; simpl;
    [|done].
  rewrite <-He.
  by destruct (merge_surgeons (run_existing rs) new_entries)
    as [existing' [a|[msg]]].
Qed.

(** The records a run ends with depend on the records it starts with and
    on the sources only. *)
Lemma run_sources_existing rs rs' scrapers :
  run_existing rs = run_existing rs' →
  run_existing (run_sources rs scrapers)
  = run_existing (run_sources rs' scrapers).
Proof.
  revert rs rs'. induction scrapers as [|src scrapers IH]; intros rs rs' He;
    [done|].
  simpl. by apply IH, run_source_existing.
Qed.

(** A later source whose merge returns has its records in the final list
    and its counts in the outcome. *)
Lemma run_sources_later rs after1 later after2 entries E' a :
  later.2 = Py.Ok entries →
  merge_surgeons (run_existing (run_sources rs after1)) entries
    = (E', Py.Ok a) →
  E' `prefix_of`
     run_existing (run_sources rs (after1 ++ later :: after2))
  ∧ (later.1 ∉ after2.*1 →
     results_by_source (run_sources rs (after1 ++ later :: after2)) !! later.1
     = Some (Counts (length entries) a)).
Proof.
  intros Hlater Hm. rewrite run_sources_app. cbn [run_sources foldl].
  fold (run_sources (run_source (run_sources rs after1) later) after2).
  assert (run_existing (run_source (run_sources rs after1) later) = E'
          ∧ results_by_source (run_source (run_sources rs after1) later)
              !! later.1 = Some (Counts (length entries) a)) as [He Hr].
  { destruct later as [source_name scraped]. simpl in *. subst scraped.
    rewrite Hm. simpl. by rewrite lookup_insert_eq. }
  split.
  - rewrite <-He. apply run_sources_prefix.
  - intros Hn. by rewrite run_sources_results_other.
Qed.

(** C6.  When the turn of a source ends in the [except] branch, its outcome
    entry holds the error and the total is as before; the loop goes on with
    the sources after it from the state reached, and the entry stays unless
    a later source has the same name.  Nothing gathered so far is lost: when
    the scraper raised the list is as before the turn, when the merge raised
    it is what the merge left, that is what the candidates before the
    failing one added; that list is the start of the final list and all of
    it occurs in the sorted list that is saved.  The final records are those
    of the run without the failing source (or with only its candidates
    before the failing one), and every later source whose merge returns has
    its records in the final list and its counts in the outcome. *)
Theorem fault_isolation st0 before src after msg :
  source_fails (run_sources st0 before) src msg →
  let st1 := run_sources st0 before in
  let st2 := run_source st1 src in
  let final := run_sources st0 (before ++ src :: after) in
  results_by_source st2 !! src.1 = Some (Error msg)
  ∧ total_added st2 = total_added st1
  ∧ final = run_sources st2 after
  ∧ (src.1 ∉ after.*1 → results_by_source final !! src.1 = Some (Error msg))
  ∧ run_existing st1 `prefix_of` run_existing final
  ∧ (∀ d, d ∈ run_existing st1 → d ∈ sort_surgeons (run_existing final))
  ∧ (src.2 = Py.Raise (Py.Exn msg) →
     run_existing final = run_existing (run_sources st0 (before ++ after))
     ∧ total_added final = total_added (run_sources st0 (before ++ after)))
  ∧ (src.2 = Py.Raise (Py.Exn msg) → run_existing st2 = run_existing st1)
  ∧ (∀ new_entries, src.2 = Py.Ok new_entries →
       run_existing st2 = (merge_surgeons (run_existing st1) new_entries).1)
  ∧ (∀ C1 bad C2,
       src.2 = Py.Ok (C1 ++ bad :: C2) →
       Forall (λ entry, Entry.name entry ≠ Some None) C1 →
       Entry.name bad = Some None →
       run_existing st2 = (merge_surgeons (run_existing st1) C1).1
       ∧ run_existing final
         = run_existing
             (run_sources st0 (before ++ (src.1, Py.Ok C1) :: after)))
  ∧ run_existing st2 `prefix_of` run_existing final
  ∧ (∀ d, d ∈ run_existing st2 → d ∈ sort_surgeons (run_existing final))
  ∧ (∀ after1 later after2 entries E' a,
       after = after1 ++ later :: after2 →
       later.2 = Py.Ok entries →
       merge_surgeons (run_existing (run_sources st2 after1)) entries
         = (E', Py.Ok a) →
       E' `prefix_of` run_existing final
       ∧ (later.1 ∉ after2.*1 →
          results_by_source final !! later.1
          = Some (Counts (length entries) a))).
Proof.
  intros Hfail st1 st2 final.
  destruct (run_source_fails st1 src msg Hfail) as [Hres Htot].
  assert (final = run_sources st2 after) as Hfinal
    by (unfold final; by rewrite run_sources_app).
  assert (run_existing st2 `prefix_of` run_existing final) as Hpre2
    by (rewrite Hfinal; apply run_sources_prefix).
  assert (run_existing st1 `prefix_of` run_existing final) as Hpre
    by (etrans; [apply (run_source_prefix st1 src) | exact Hpre2]).
  assert (∀ l d, l `prefix_of` run_existing final → d ∈ l →
                 d ∈ sort_surgeons (run_existing final)) as Hsorted.
  { intros l d [new Hl] Hd. rewrite sort_surgeons_perm, Hl.
    apply elem_of_app. by left. }
  split; [done|]. split; [done|]. split; [done|].
  split; [intros Hn; rewrite Hfinal; by rewrite run_sources_results_other|].
  split; [done|]. split; [intros d; by apply Hsorted|].
  split.
  { intros Hraise. rewrite Hfinal, run_sources_app. fold st1.
    apply run_sources_records; [|done].
    unfold st2. destruct src as [n s]. simpl in Hraise. by subst s. }
  split.
  { intros Hraise. unfold st2. destruct src as [n s]. simpl in Hraise.
    by subst s. }
  split.
  { intros new_entries Hok. unfold st2. destruct src as [n s].
    simpl in Hok. subst s. simpl.
    by destruct (merge_surgeons (run_existing st1) new_entries)
      as [existing' [a|[m]]]. }
  split.
  { intros C1 bad C2 Hok HC1 Hbad.
    destruct (run_source_merge_raises st1 src C1 bad C2 Hok HC1 Hbad)
      as [He _].
    split; [done|]. rewrite Hfinal, run_sources_app. fold st1.
    cbn [run_sources foldl].
    fold (run_sources st2 after).
    fold (run_sources (run_source st1 (src.1, Py.Ok C1)) after).
    apply run_sources_existing. etrans; [exact He|]. simpl.
    by destruct (merge_surgeons (run_existing st1) C1)
      as [existing' [a|[m]]]. }
  split; [done|]. split; [intros d; by apply Hsorted|].
  intros after1 later after2 entries E' a -> Hlater Hm. rewrite Hfinal.
  by apply run_sources_later.
Qed.

Lemma fault_isolation_witness :
  let bad := {| Entry.name := Some None;
                Entry.org := None; Entry.city := None; Entry.state := None;
                Entry.phone := None; Entry.web := None;
                Entry.profile_url := None; Entry.specs := None;
                Entry.accepting := None; Entry.notes := None;
                Entry.source := None; Entry.source_location := None |} in
  let st0 := {| run_existing := []; total_added := 0; results_by_source := ∅ |} in
  let before := [("iCareBetter", Py.Ok [named "Dr. Jane Smith"])] in
  let src := ("EndofEndo",
              Py.Ok ([named "Dr. Bob Roe"] ++ bad :: [named "Dr. Cy Dee"])) in
  let after := [("Pelvic Rehab", Py.Ok [named "Dr. Amy Lee"])] in
  let final := run_sources st0 (before ++ src :: after) in
  results_by_source final !! "EndofEndo"
    = Some (Error "'NoneType' object has no attribute 'strip'")
  ∧ results_by_source final !! "Pelvic Rehab" = Some (Counts 1 1)
  ∧ Surgeon.name <$> run_existing final
    = ["Dr. Jane Smith"; "Dr. Bob Roe"; "Dr. Amy Lee"]
  ∧ Surgeon.name <$> run_existing (run_source (run_sources st0 before) src)
    = ["Dr. Jane Smith"; "Dr. Bob Roe"]
  ∧ total_added final = 2.
Proof.
  intros bad st0 before src after final.
  assert (source_fails (run_sources st0 before) src
            "'NoneType' object has no attribute 'strip'") as Hfail.
  { right. eexists _, _. split; reflexivity. }
  destruct (fault_isolation st0 before src after _ Hfail)
    as (_ & _ & _ & Herr & _ & _ & _ & _ & _ & Hkept & _).
  destruct (Hkept [named "Dr. Bob Roe"] bad [named "Dr. Cy Dee"] eq_refl)
    as [Hst2 _]; [by repeat constructor | reflexivity |].
  split; [apply Herr; vm_compute; by intros [[=]|[]%elem_of_nil]%elem_of_cons|].
  split; [reflexivity|]. split; [reflexivity|].
  split; [by rewrite Hst2 | reflexivity].
Defined.
